(** * Solana C++ SDK (solana.hpp): address codec, program-derived addresses,
      message compiler, wire serializer and result envelope.

    A shallow embedding of the parts of [src/solana.hpp] that build, compile
    and serialize transactions, followed by the properties proved about them.

    Conventions.
    - [uint8_t] values are [Z] in [0, 256); arithmetic on them writes the
      wrap-around out ([uint8]).
    - [std::vector] and [std::array] are lists; an iterator is its offset
      from [begin()], so [end()] is the length of the list.
    - A C++ [throw] is the [Throw] case of [result]. *)

From Stdlib Require Import String Ascii.
From Stdlib Require Import List ZArith Lia Bool Arith Permutation Sorted.
Import ListNotations.
Open Scope string_scope.
Open Scope list_scope.
Open Scope Z_scope.

(* ================================================================== *)
(** * Part I: the program                                              *)
(* ================================================================== *)

(** ** Exceptions *)

(** The only exception type the header raises itself is
    [std::runtime_error]; [json_exception] stands for anything thrown by the
    JSON library while reading a value. *)
Inductive exn : Type :=
| runtime_error (what : string)
| json_exception.

Inductive result (A : Type) : Type :=
| Ok (a : A)
| Throw (e : exn).
Arguments Ok {A} a.
Arguments Throw {A} e.

Definition bind {A B : Type} (m : result A) (k : A -> result B) : result B :=
  match m with
  | Ok a => k a
  | Throw e => Throw e
  end.

Notation "x <- m ;; k" := (bind m (fun x => k))
  (at level 61, m at next level, right associativity).

(** ** Machine integers and iterators *)

Definition uint8 (z : Z) : Z := z mod 256.

(** Conversion to [int64_t]: the value modulo 2^64 that lies in
    [-2^63, 2^63), as [static_cast<int64_t>] gives for a [uint64_t]. *)
Definition int64 (z : Z) : Z :=
  (z + 9223372036854775808) mod 18446744073709551616 - 9223372036854775808.

Definition MAX_SEED_LENGTH : nat := 32.
Definition PUBLIC_KEY_LENGTH : nat := 32.
Definition PRIVATE_KEY_LENGTH : nat := 64.

(** [std::find(v.begin(), v.end(), x) - v.begin()] for the predicate
    [p = (fun y => y == x)]: the offset of the first match, or the length of
    the list when the search returns [end()]. *)
Fixpoint std_find {A : Type} (p : A -> bool) (v : list A) : nat :=
  match v with
  | [] => O
  | y :: v' => if p y then O else S (std_find p v')
  end.

(** [v.erase(v.begin() + i)] *)
Definition erase {A : Type} (v : list A) (i : nat) : list A :=
  firstn i v ++ skipn (S i) v.

(** [std::sort(first, last, less)].  The order in which the standard library
    leaves elements that compare equivalent is unspecified; the comparator
    used by [compile] is a strict total order on the triple it reads, so
    equivalent elements are equal and the sorted sequence is unique
    (see [meta_less_equiv] and [std_sort_unique]).  An insertion sort
    computes it. *)
Fixpoint sorted_insert {A : Type} (less : A -> A -> bool) (x : A) (v : list A)
  : list A :=
  match v with
  | [] => [x]
  | y :: v' => if less x y then x :: v else y :: sorted_insert less x v'
  end.

Definition std_sort {A : Type} (less : A -> A -> bool) (v : list A) : list A :=
  fold_right (sorted_insert less) [] v.

(** A list is ordered when no element is less than the one before it. *)
Fixpoint ordered {A : Type} (less : A -> A -> bool) (v : list A) : bool :=
  match v with
  | x :: (y :: _) as v' => negb (less y x) && ordered less v'
  | _ => true
  end.

(** ** PublicKey *)

Record PublicKey : Type := mkPublicKey { bytes : list Z }.

(** [PublicKey()] *)
Definition PublicKey_default : PublicKey :=
  mkPublicKey (repeat 0 PUBLIC_KEY_LENGTH).

(** [operator==]: the loop returns [false] at the first index where the two
    arrays differ. *)
Fixpoint bytes_eqb (a b : list Z) : bool :=
  match a, b with
  | [], [] => true
  | x :: a', y :: b' => if negb (x =? y) then false else bytes_eqb a' b'
  | _, _ => false
  end.

Definition pubkey_eqb (a b : PublicKey) : bool := bytes_eqb (bytes a) (bytes b).

(** [operator<]: lexicographic comparison of the arrays. *)
Fixpoint bytes_ltb (a b : list Z) : bool :=
  match a, b with
  | x :: a', y :: b' =>
      if x <? y then true
      else if x >? y then false
      else bytes_ltb a' b'
  | _, _ => false
  end.

Definition pubkey_ltb (a b : PublicKey) : bool := bytes_ltb (bytes a) (bytes b).

(** [to_buffer] *)
Definition to_buffer (k : PublicKey) : list Z := bytes k.

(** ** Keypair *)

Record Keypair : Type := mkKeypair {
  secretKey : list Z;
  publicKey : PublicKey
}.

(** ** TransactionMessageHeader *)

Record TransactionMessageHeader : Type := mkHeader {
  numRequiredSignatures : Z;
  numReadonlySignedAccounts : Z;
  numReadonlyUnsignedAccounts : Z
}.

(** ** CompiledTransaction::Message *)

Module CompiledTransaction.
Module Message.

Record Instruction : Type := mkInstruction {
  accounts : list Z;
  data : list Z;
  programIdIndex : Z
}.

Record t : Type := mk {
  header : TransactionMessageHeader;
  accountKeys : list PublicKey;
  recentBlockhash : PublicKey;
  instructions : list Instruction
}.

Section Serialize.

(** [encode_length] is declared in [many.hpp]; [serialize] only calls
    it, so it is a parameter here. *)
Variable encode_length : nat -> list Z.

(** [v.push_back(x)] and [v.insert(v.end(), first, last)] *)
Definition push_back (v : list Z) (x : Z) : list Z := v ++ [x].
Definition insert_end (v : list Z) (w : list Z) : list Z := v ++ w.

(** Body of the loop over [instructions]. *)
Definition serialize_instruction (serialized_message : list Z)
    (instruction : Instruction) : list Z :=
  let serialized_message :=
    push_back serialized_message (programIdIndex instruction) in
  let keyIndicesCount := encode_length (length (accounts instruction)) in
  let serialized_message := insert_end serialized_message keyIndicesCount in
  let serialized_message :=
    fold_left push_back (accounts instruction) serialized_message in
  let dataLength := encode_length (length (data instruction)) in
  let serialized_message := insert_end serialized_message dataLength in
  insert_end serialized_message (data instruction).

(** [void serialize(std::vector<uint8_t>& serialized_message)]: the
    buffer is passed in and the grown buffer is returned. *)
Definition serialize (m : t) (serialized_message : list Z)
  : result (list Z) :=
  if (0 <? length serialized_message)%nat then
    Throw (runtime_error "Message is already serialized")
  else if numRequiredSignatures (header m) =? 0 then
    Throw (runtime_error "Message must have at least one signature")
  else
    let serialized_message :=
      push_back serialized_message (numRequiredSignatures (header m)) in
    let serialized_message :=
      push_back serialized_message (numReadonlySignedAccounts (header m)) in
    let serialized_message :=
      push_back serialized_message (numReadonlyUnsignedAccounts (header m)) in
    let keyCount := encode_length (length (accountKeys m)) in
    let serialized_message := insert_end serialized_message keyCount in
    let serialized_message :=
      fold_left (fun buf key => insert_end buf (bytes key))
                (accountKeys m) serialized_message in
    let serialized_message :=
      insert_end serialized_message (bytes (recentBlockhash m)) in
    let instructionCount := encode_length (length (instructions m)) in
    let serialized_message :=
      insert_end serialized_message instructionCount in
    Ok (fold_left serialize_instruction (instructions m)
                  serialized_message).

(** The byte layout, written as the wire format describes it: one
    instruction, then the whole message. *)
Definition instruction_layout (i : Instruction) : list Z :=
  [programIdIndex i]
    ++ encode_length (length (accounts i))
    ++ accounts i
    ++ encode_length (length (data i))
    ++ data i.

Definition message_layout (m : t) : list Z :=
  [numRequiredSignatures (header m);
   numReadonlySignedAccounts (header m);
   numReadonlyUnsignedAccounts (header m)]
    ++ encode_length (length (accountKeys m))
    ++ concat (map bytes (accountKeys m))
    ++ bytes (recentBlockhash m)
    ++ encode_length (length (instructions m))
    ++ concat (map instruction_layout (instructions m)).

End Serialize.

End Message.
End CompiledTransaction.

(** ** Transaction::Message *)

Module Transaction.
Module Message.

Record AccountMeta : Type := mkAccountMeta {
  pubkey : PublicKey;
  isSigner : bool;
  isWritable : bool
}.

(** [AccountMeta::operator==(const AccountMeta&)] and
    [AccountMeta::operator==(const PublicKey&)] look at the key only. *)
Definition meta_eqb (a other : AccountMeta) : bool :=
  pubkey_eqb (pubkey a) (pubkey other).
Definition meta_eqb_key (a : AccountMeta) (other : PublicKey) : bool :=
  pubkey_eqb (pubkey a) other.

Record Instruction : Type := mkInstruction {
  programId : PublicKey;
  accounts : list AccountMeta;
  data : list Z
}.

Record t : Type := mk {
  header : TransactionMessageHeader;
  accountKeys : list PublicKey;
  recentBlockhash : PublicKey;
  instructions : list Instruction
}.

(** First loop of [compile]: every account of every instruction, kept the
    first time its key is seen.  [std::find] compares an element of
    [accountMetas] with [account]. *)
Definition collect_account (accountMetas : list AccountMeta)
    (account : AccountMeta) : list AccountMeta :=
  if (std_find (fun m => meta_eqb m account) accountMetas
        =? length accountMetas)%nat
  then accountMetas ++ [account]
  else accountMetas.

Definition collect_accounts (instrs : list Instruction)
  : list AccountMeta :=
  fold_left (fun accountMetas instruction =>
               fold_left collect_account (accounts instruction) accountMetas)
            instrs [].

(** Second loop: a program id not yet in [programIds] is recorded there
    and pushed onto [accountMetas]. *)
Definition collect_program (st : list PublicKey * list AccountMeta)
    (instruction : Instruction) : list PublicKey * list AccountMeta :=
  let '(programIds, accountMetas) := st in
  let programId := programId instruction in
  if (std_find (fun p => pubkey_eqb p programId) programIds
        =? length programIds)%nat
  then (programIds ++ [programId],
        accountMetas ++ [mkAccountMeta programId false false])
  else (programIds, accountMetas).

Definition collect_programs (instrs : list Instruction)
    (accountMetas : list AccountMeta) : list AccountMeta :=
  snd (fold_left collect_program instrs ([], accountMetas)).

(** The comparator handed to [std::sort]. *)
Definition meta_less (a b : AccountMeta) : bool :=
  if negb (Bool.eqb (isSigner a) (isSigner b)) then isSigner a
  else if negb (Bool.eqb (isWritable a) (isWritable b)) then isWritable a
  else pubkey_ltb (pubkey a) (pubkey b).

(** "Move fee payer to the front". *)
Definition move_fee_payer (accountMetas : list AccountMeta)
    (fee_payer : PublicKey) : list AccountMeta :=
  let feePayerIndex :=
    std_find (fun m => meta_eqb_key m fee_payer) accountMetas in
  if negb (feePayerIndex =? length accountMetas)%nat then
    let payerMeta :=
      nth feePayerIndex accountMetas (mkAccountMeta fee_payer true true) in
    let accountMetas := erase accountMetas feePayerIndex in
    let payerMeta := mkAccountMeta (pubkey payerMeta) true true in
    payerMeta :: accountMetas
  else
    mkAccountMeta fee_payer true true :: accountMetas.

(** The account-meta list as it stands after the fee payer was moved. *)
Definition ordered_metas (instrs : list Instruction) (fee_payer : PublicKey)
  : list AccountMeta :=
  let accountMetas := collect_accounts instrs in
  let accountMetas := collect_programs instrs accountMetas in
  let accountMetas := std_sort meta_less accountMetas in
  move_fee_payer accountMetas fee_payer.

(** "Split out signing from non-signing keys and count header values":
    the three [uint8_t] counters and the two key vectors. *)
Record split : Type := mkSplit {
  n_required : Z;
  n_readonly_signed : Z;
  n_readonly_unsigned : Z;
  signedKeys : list PublicKey;
  unsignedKeys : list PublicKey
}.

Definition split_step (s : split) (accountMeta : AccountMeta) : split :=
  if isSigner accountMeta then
    mkSplit (uint8 (n_required s + 1))
            (if negb (isWritable accountMeta)
             then uint8 (n_readonly_signed s + 1)
             else n_readonly_signed s)
            (n_readonly_unsigned s)
            (signedKeys s ++ [pubkey accountMeta])
            (unsignedKeys s)
  else
    mkSplit (n_required s)
            (n_readonly_signed s)
            (if negb (isWritable accountMeta)
             then uint8 (n_readonly_unsigned s + 1)
             else n_readonly_unsigned s)
            (signedKeys s)
            (unsignedKeys s ++ [pubkey accountMeta]).

Definition split_keys (accountMetas : list AccountMeta) : split :=
  fold_left split_step accountMetas (mkSplit 0 0 0 [] []).

(** Last loop: indices of the accounts and of the program of each
    instruction.  Only the account lookup is checked against [end()]; the
    iterator difference is narrowed to [uint8_t]. *)
Definition account_index (keys : list PublicKey)
    (accountsIndexes : list Z) (account : AccountMeta) : result (list Z) :=
  let index := std_find (fun k => pubkey_eqb k (pubkey account)) keys in
  if (index =? length keys)%nat then
    Throw (runtime_error "Unknown account")
  else Ok (accountsIndexes ++ [uint8 (Z.of_nat index)]).

Fixpoint account_indexes (keys : list PublicKey)
    (accs : list AccountMeta) (accountsIndexes : list Z)
  : result (list Z) :=
  match accs with
  | [] => Ok accountsIndexes
  | account :: accs' =>
      accountsIndexes <- account_index keys accountsIndexes account ;;
      account_indexes keys accs' accountsIndexes
  end.

Definition compile_instruction (keys : list PublicKey)
    (instruction : Instruction)
  : result CompiledTransaction.Message.Instruction :=
  accountsIndexes <- account_indexes keys (accounts instruction) [] ;;
  Ok (CompiledTransaction.Message.mkInstruction
        accountsIndexes
        (data instruction)
        (uint8 (Z.of_nat
           (std_find (fun k => pubkey_eqb k (programId instruction)) keys)))).

Fixpoint compile_instructions (keys : list PublicKey)
    (instrs : list Instruction)
    (compiledInstructions : list CompiledTransaction.Message.Instruction)
  : result (list CompiledTransaction.Message.Instruction) :=
  match instrs with
  | [] => Ok compiledInstructions
  | instruction :: instrs' =>
      c <- compile_instruction keys instruction ;;
      compile_instructions keys instrs' (compiledInstructions ++ [c])
  end.

(** [CompiledTransaction::Message compile(const std::vector<Keypair>&)] *)
Definition compile (m : t) (signers : list Keypair)
  : result CompiledTransaction.Message.t :=
  match instructions m with
  | [] => Throw (runtime_error "No instructions provided")
  | _ :: _ =>
    match signers with
    | [] => Throw (runtime_error "No signers provided")
    | signer0 :: _ =>
        let fee_payer := publicKey signer0 in
        let accountMetas := ordered_metas (instructions m) fee_payer in
        let s := split_keys accountMetas in
        let accountKeys := signedKeys s ++ unsignedKeys s in
        compiledInstructions <-
          compile_instructions accountKeys (instructions m) [] ;;
        Ok (CompiledTransaction.Message.mk
              (mkHeader (n_required s) (n_readonly_signed s)
                        (n_readonly_unsigned s))
              accountKeys
              (recentBlockhash m)
              compiledInstructions)
    end
  end.

End Message.
End Transaction.

(** ** Program-derived addresses *)

Section ProgramAddress.

(** libsodium's [crypto_hash_sha256] and the two curve primitives that
    [many.hpp] re-exports in its [libsodium] namespace.  Each is a pure
    function of the bytes it reads; the integer is the C return value. *)
Variable crypto_hash_sha256 : list Z -> list Z.
Variable ge25519_is_canonical : list Z -> Z.
Variable ge25519_frombytes : list Z -> Z.

(** [PublicKey(const uint8_t* value)] copies [PUBLIC_KEY_LENGTH] bytes. *)
Definition PublicKey_of_ptr (value : list Z) : PublicKey :=
  mkPublicKey (firstn PUBLIC_KEY_LENGTH value).

Definition is_on_curve (k : PublicKey) : bool :=
  if (ge25519_is_canonical (bytes k) =? 0)
     || negb (ge25519_frombytes (bytes k) =? 0)
  then false
  else true.

(** The bytes of the string literal ["ProgramDerivedAddress"]. *)
Definition ProgramDerivedAddress : list Z :=
  map (fun c => Z.of_nat (nat_of_ascii c))
      (list_ascii_of_string "ProgramDerivedAddress").

(** The loop over [seeds]: the length check and the append happen seed by
    seed, so the first over-long seed raises. *)
Fixpoint append_seeds (seeds : list (list Z)) (buffer : list Z)
  : result (list Z) :=
  match seeds with
  | [] => Ok buffer
  | seed :: seeds' =>
      if (MAX_SEED_LENGTH <? length seed)%nat then
        Throw (runtime_error "Max seed length exceeded")
      else append_seeds seeds' (buffer ++ seed)
  end.

(** [std::optional<PublicKey> create_program_address(seeds, program_id)] *)
Definition create_program_address (seeds : list (list Z))
    (program_id : PublicKey) : result (option PublicKey) :=
  buffer <- append_seeds seeds [] ;;
  let buffer := buffer ++ bytes program_id in
  let buffer := buffer ++ ProgramDerivedAddress in
  let hash := crypto_hash_sha256 buffer in
  let pubkey := PublicKey_of_ptr hash in
  if is_on_curve pubkey then Ok None else Ok (Some pubkey).

(** The [while (nonce != 0)] loop, by recursion on the value of [nonce]. *)
Fixpoint find_program_address_from (nonce : nat) (seeds : list (list Z))
    (programId : PublicKey) : result (PublicKey * Z) :=
  match nonce with
  | O =>
      Throw (runtime_error "Unable to find a viable program address nonce")
  | S nonce' =>
      let seedsWithNonce := seeds ++ [[Z.of_nat nonce]] in
      address <- create_program_address seedsWithNonce programId ;;
      match address with
      | Some a => Ok (a, Z.of_nat nonce)
      | None => find_program_address_from nonce' seeds programId
      end
  end.

(** [std::tuple<PublicKey, uint8_t> find_program_address(seeds, programId)] *)
Definition find_program_address (seeds : list (list Z))
    (programId : PublicKey) : result (PublicKey * Z) :=
  find_program_address_from 255 seeds programId.

End ProgramAddress.

(** ** Keypair(std::array<char, PUBLIC_KEY_LENGTH> secretKey, bool) *)

Section KeypairFromSecret.

(** The value returned by [sodium_init()], and libsodium's
    [crypto_sign_ed25519_sk_to_pk(pk, sk)] as a function from the bytes at
    [sk] to its return value and the bytes it writes at [pk]. *)
Variable sodium_init : Z.
Variable crypto_sign_ed25519_sk_to_pk : list Z -> Z * list Z.

(** The constructor has no member initialisers and never assigns the
    member [secretKey]: the member keeps whatever the storage held
    ([indeterminate]), and [publicKey] starts as [PublicKey()].  The
    parameter named [secretKey] shadows the member; it has
    [PUBLIC_KEY_LENGTH] elements. *)
Definition Keypair_of_secret (indeterminate : list Z)
    (secretKey_param : list Z) (skipValidation : bool) : result Keypair :=
  if sodium_init =? -1 then
    Throw (runtime_error "Failed to initialize libsodium")
  else if negb skipValidation then
    let '(rc, pk) := crypto_sign_ed25519_sk_to_pk secretKey_param in
    if negb (rc =? 0) then Throw (runtime_error "invalid secret key")
    else Ok (mkKeypair indeterminate (mkPublicKey pk))
  else Ok (mkKeypair indeterminate PublicKey_default).

End KeypairFromSecret.

(** ** JSON values and the result envelope *)

Module Json.

(** [number n] is a number the parser keeps as an integer, signed or
    unsigned 64-bit: [-2^63 <= n < 2^64].  Floating-point numbers, which is
    also what a longer integer literal becomes, are left out. *)
#[local] Unset Elimination Schemes.
Inductive json : Type :=
| null
| boolean (b : bool)
| number (n : Z)
| str (s : string)
| array (elements : list json)
| object (members : list (string * json)).
#[local] Set Elimination Schemes.

(** [j.contains(key)]: [false] unless [j] is an object with that key. *)
Definition contains (j : json) (key : string) : bool :=
  match j with
  | object members => existsb (fun kv => String.eqb (fst kv) key) members
  | _ => false
  end.

(** [j[key]] on a [const json&]: defined only for an object that has the
    key. *)
Definition at_key (j : json) (key : string) : result json :=
  match j with
  | object members =>
      match find (fun kv => String.eqb (fst kv) key) members with
      | Some kv => Ok (snd kv)
      | None => Throw json_exception
      end
  | _ => Throw json_exception
  end.

Definition is_null (j : json) : bool :=
  match j with
  | null => true
  | _ => false
  end.

(** [j.get<int64_t>()]: the stored integer converted to [int64_t], so an
    unsigned value of 2^63 or more comes out negative; a boolean converts to
    0 or 1; anything else is a type error. *)
Definition get_int64 (j : json) : result Z :=
  match j with
  | number n => Ok (int64 n)
  | boolean b => Ok (if b then 1 else 0)
  | _ => Throw json_exception
  end.

(** [j.get<std::string>()] *)

Definition get_string (j : json) : result string :=
  match j with
  | str s => Ok s
  | _ => Throw json_exception
  end.

End Json.

Record ResultError : Type := mkResultError {
  code : Z;
  message : string
}.

(** [void from_json(const json& j, ResultError& t)] *)
Definition ResultError_from_json (j : Json.json) : result ResultError :=
  jc <- Json.at_key j "code" ;;
  c <- Json.get_int64 jc ;;
  jm <- Json.at_key j "message" ;;
  m <- Json.get_string jm ;;
  Ok (mkResultError c m).

Section ResultEnvelope.

(** The payload type [T] and [Context] (declared in [many.hpp]) with their
    decoders [j.get<T>()] and [j.get<Context>()]. *)
Variables T Context : Type.
Variable get_T : Json.json -> result T.
Variable get_Context : Json.json -> result Context.

Record Result : Type := mkResult {
  _context : option Context;
  _result : option T;
  _error : option ResultError
}.

(** [Result() = default] *)
Definition Result_default : Result := mkResult None None None.

Definition set_context (r : Result) (c : Context) : Result :=
  mkResult (Some c) (_result r) (_error r).
Definition set_result (r : Result) (v : T) : Result :=
  mkResult (_context r) (Some v) (_error r).
Definition set_error (r : Result) (e : ResultError) : Result :=
  mkResult (_context r) (_result r) (Some e).

(** [bool ok() const] *)
Definition ok (r : Result) : bool :=
  match _result r with
  | Some _ => true
  | None => false
  end.

(** [template <typename T> void from_json(const json& j, Result<T>& r)];
    [r] is updated in place, so it is both argument and result. *)
Definition Result_from_json (j : Json.json) (r : Result) : result Result :=
  if Json.contains j "result" then
    jr <- Json.at_key j "result" ;;
    r <- (if Json.contains jr "context" then
            jc <- Json.at_key jr "context" ;;
            c <- get_Context jc ;;
            Ok (set_context r c)
          else Ok r) ;;
    if Json.contains jr "value" then
      jv <- Json.at_key jr "value" ;;
      if negb (Json.is_null jv) then
        v <- get_T jv ;;
        Ok (set_result r v)
      else Ok r
    else
      if negb (Json.is_null jr) then
        v <- get_T jr ;;
        Ok (set_result r v)
      else Ok r
  else if Json.contains j "error" then
    je <- Json.at_key j "error" ;;
    e <- ResultError_from_json je ;;
    Ok (set_error r e)
  else Ok r.

(** [j.get<Result<T>>()]: decode into a default-constructed value. *)
Definition decode_response (j : Json.json) : result Result :=
  Result_from_json j Result_default.

End ResultEnvelope.

Arguments _context {T Context} r.
Arguments _result {T Context} r.
Arguments _error {T Context} r.

(** ** Positional notation *)

Section Radix.

Variable base : Z.

Definition digit (d : Z) : Prop := 0 <= d < base.

(** Value of a most-significant-first digit string. *)
Definition from_digits (ds : list Z) : Z :=
  fold_left (fun acc d => acc * base + d) ds 0.

(** Shortest digit string of [n] (empty for 0), at most [fuel] digits,
    pushed in front of [acc]. *)
Fixpoint to_digits (fuel : nat) (n : Z) (acc : list Z) : list Z :=
  match fuel with
  | O => acc
  | S fuel' =>
      if n =? 0 then acc
      else to_digits fuel' (n / base) (n mod base :: acc)
  end.

(** The [width] low digits of [n], most significant first. *)
Fixpoint to_digits_fixed (width : nat) (n : Z) (acc : list Z) : list Z :=
  match width with
  | O => acc
  | S width' => to_digits_fixed width' (n / base) (n mod base :: acc)
  end.

End Radix.

(** ** Base-58 codec *)

Module base58.

Definition alphabet : list ascii :=
  list_ascii_of_string
    "123456789ABCDEFGHJKLMNPQRSTUVWXYZabcdefghijkmnopqrstuvwxyz".

Definition NUL : ascii := Ascii.zero.

Definition digit_char (d : Z) : ascii := nth (Z.to_nat d) alphabet NUL.

Definition char_digit (c : ascii) : option Z :=
  let i := std_find (Ascii.eqb c) alphabet in
  if (i =? length alphabet)%nat then None else Some (Z.of_nat i).

Fixpoint count_leading_zeros (data : list Z) : nat :=
  match data with
  | 0 :: data' => S (count_leading_zeros data')
  | _ => O
  end.

(** Modelled from the spec: [base58::b58enc] is defined in [many.hpp].
    The text form of a byte string is one ['1'] per leading zero byte
    followed by the base-58 digits of the remaining big-endian number.
    The call fills the caller's buffer [b58] of capacity [b58sz] with the
    text and a terminating NUL and reports the size used, NUL included;
    when the capacity is too small it leaves the buffer alone. *)
Definition b58enc (b58 : list ascii) (b58sz : nat) (data : list Z)
  : bool * list ascii * nat :=
  let zcount := count_leading_zeros data in
  let size := ((length data - zcount) * 138 / 100 + 1)%nat in
  let digits := to_digits 58 size (from_digits 256 (skipn zcount data)) [] in
  let text := repeat "1"%char zcount ++ map digit_char digits in
  if (b58sz <=? length text)%nat then (false, b58, S (length text))
  else (true, text ++ NUL :: skipn (S (length text)) b58, S (length text)).

(** Value of a base-58 text, as long as every character is a digit and
    the value stays below [limit]. *)
Fixpoint accumulate (limit : Z) (b58 : list ascii) (n : Z) : option Z :=
  match b58 with
  | [] => Some n
  | c :: b58' =>
      match char_digit c with
      | None => None
      | Some d =>
          let n' := n * 58 + d in
          if n' <? limit then accumulate limit b58' n' else None
      end
  end.

(** Modelled from the spec: [base58::b58tobin] is defined in [many.hpp].
    It decodes the text into the [binsz]-byte buffer [bin] as a big-endian
    number filling the whole buffer; a character outside the alphabet or a
    number that does not fit makes it fail and leave [bin] alone. *)
Definition b58tobin (bin : list Z) (binsz : nat) (b58 : list ascii)
  : bool * list Z :=
  match accumulate (256 ^ Z.of_nat binsz) b58 0 with
  | Some n => (true, to_digits_fixed 256 binsz n [])
  | None => (false, bin)
  end.

End base58.

(** The text [b58enc] writes for a byte string, as a digit string. *)
Definition text_digits (data : list Z) : list Z :=
  let zcount := base58.count_leading_zeros data in
  let size := ((length data - zcount) * 138 / 100 + 1)%nat in
  repeat 0 zcount
    ++ to_digits 58 size (from_digits 256 (skipn zcount data)) [].

(** [value.c_str()] read as a C string: the characters before the first NUL. *)
Fixpoint c_str (value : list ascii) : list ascii :=
  match value with
  | [] => []
  | c :: value' => if Ascii.eqb c base58.NUL then [] else c :: c_str value'
  end.

(** [std::string to_base58() const] *)
Definition to_base58 (k : PublicKey) : string :=
  let temp := repeat base58.NUL 45 in
  let size := 45%nat in
  let '(_, temp, size) := base58.b58enc temp size (bytes k) in
  string_of_list_ascii (firstn (size - 1) temp).

(** [PublicKey(const std::string& value)]; the constructor does not
    initialise [bytes] before the call, so the array starts out
    [indeterminate]. *)
Definition PublicKey_of_string (indeterminate : list Z) (value : string)
  : PublicKey :=
  let size := PUBLIC_KEY_LENGTH in
  mkPublicKey
    (snd (base58.b58tobin indeterminate size
            (c_str (list_ascii_of_string value)))).

(** ** Compact lengths *)

(** Modelled from the spec: [encode_length] is defined in [many.hpp].
    Values 0-127 take one byte, 128-16383 two, and larger values continue the
    same base-128 scheme: seven bits per byte, low bits first, the top bit set
    on every byte but the last.  Ten bytes cover a 64-bit [size_t]. *)
Fixpoint encode_length_from (fuel : nat) (len : Z) : list Z :=
  match fuel with
  | O => []
  | S fuel' =>
      let elem := Z.land len 127 in
      let len := Z.shiftr len 7 in
      if len =? 0 then [elem]
      else Z.lor elem 128 :: encode_length_from fuel' len
  end.

Definition encode_length (len : nat) : list Z :=
  encode_length_from 10 (Z.of_nat len).

(** ** Names for what [compile] computes *)

Module TM := Transaction.Message.
Module CM := CompiledTransaction.Message.

(** The key list [compile] ends up with: signed keys, then unsigned keys. *)
Definition final_keys (instrs : list TM.Instruction) (fee_payer : PublicKey)
  : list PublicKey :=
  let s := TM.split_keys (TM.ordered_metas instrs fee_payer) in
  TM.signedKeys s ++ TM.unsignedKeys s.

(** The index [compile] stores for a key: its first position in the key
    list, narrowed to [uint8_t]. *)
Definition key_index (keys : list PublicKey) (k : PublicKey) : Z :=
  uint8 (Z.of_nat (std_find (fun x => pubkey_eqb x k) keys)).

(** The compiled form of one instruction over a key list. *)
Definition compiled_of (keys : list PublicKey) (i : TM.Instruction)
  : CM.Instruction :=
  CM.mkInstruction
    (map (fun a => key_index keys (TM.pubkey a)) (TM.accounts i))
    (TM.data i)
    (key_index keys (TM.programId i)).

(** ** Sample values *)

(** A key whose first byte is [b] and whose other bytes are zero. *)
Definition key (b : Z) : PublicKey := mkPublicKey (b :: repeat 0 31).

Definition signer_of (k : PublicKey) : Keypair := mkKeypair (repeat 0 64) k.

Definition payer : Keypair := signer_of (key 1).

(** Two instructions; the program of the second ([key 7]) is also passed as
    a read-only account to the first. *)
Definition tx_program_as_account : TM.t :=
  TM.mk (mkHeader 0 0 0) [] (key 9)
    [ TM.mkInstruction (key 5)
        [TM.mkAccountMeta (key 1) true true;
         TM.mkAccountMeta (key 7) false false]
        [1; 2];
      TM.mkInstruction (key 7)
        [TM.mkAccountMeta (key 1) true true;
         TM.mkAccountMeta (key 3) false true]
        [3] ].

(** A transfer-like transaction: payer, a second signer and a recipient. *)
Definition tx_simple : TM.t :=
  TM.mk (mkHeader 0 0 0) [] (key 9)
    [ TM.mkInstruction (key 5)
        [TM.mkAccountMeta (key 4) true false;
         TM.mkAccountMeta (key 1) true true;
         TM.mkAccountMeta (key 3) false true]
        [2; 0; 0; 0] ].

(** What [compile] returns for [tx_simple] signed by [payer]. *)
Definition msg_simple : CM.t :=
  CM.mk (mkHeader 2 1 1)
        [key 1; key 4; key 3; key 5] (key 9)
        [CM.mkInstruction [1; 0; 2] [2; 0; 0; 0] 3].

(** The same message with the signature count cleared. *)
Definition msg_unsigned : CM.t :=
  CM.mk (mkHeader 0 0 4)
        [key 1; key 4; key 3; key 5] (key 9)
        [CM.mkInstruction [1; 0; 2] [2; 0; 0; 0] 3].

(** One instruction that names 256 distinct signers, [key 0] .. [key 255]. *)
Definition tx_256_signers : TM.t :=
  TM.mk (mkHeader 0 0 0) [] (key 9)
    [ TM.mkInstruction (mkPublicKey (repeat 255 32))
        (map (fun i => TM.mkAccountMeta (key (Z.of_nat i)) true true)
             (seq 0 256))
        [] ].

(** Stand-ins for the three library primitives, for running the address
    derivation on sample data: the digest repeats the byte sum of the input,
    every encoding is canonical, and a key decodes to a curve point when its
    first byte is odd. *)
Definition sample_sha256 (data : list Z) : list Z :=
  repeat (fold_left Z.add data 0 mod 256) 32.
Definition sample_is_canonical (k : list Z) : Z := 1.
Definition sample_frombytes (k : list Z) : Z :=
  if Z.odd (hd 0 k) then 0 else -1.

(** A response that carries an error object next to a null result, and one
    that carries an error object next to a value. *)
Definition response_null_result_and_error : Json.json :=
  Json.object
    [("jsonrpc", Json.str "2.0");
     ("result", Json.null);
     ("error", Json.object [("code", Json.number (-32002));
                            ("message", Json.str "Transaction failed")]);
     ("id", Json.number 1)].

Definition response_value_and_error : Json.json :=
  Json.object
    [("result", Json.number 7);
     ("error", Json.object [("code", Json.number (-32002));
                            ("message", Json.str "Transaction failed")])].

Definition response_error : Json.json :=
  Json.object
    [("jsonrpc", Json.str "2.0");
     ("error", Json.object [("code", Json.number (-32002));
                            ("message", Json.str "Transaction failed")]);
     ("id", Json.number 1)].

(** ** Faults besides [std::runtime_error] *)

(** [bad_optional_access] is what [std::optional::value()] throws on an empty
    optional.  Modelled from the spec: [ASSERT] is a macro of [many.hpp]; a
    failed assertion ends the call ([assertion_failed]), and nothing more is
    said here about what it does. *)
Inductive fault : Type :=
| raised (e : exn)
| assertion_failed
| bad_optional_access.

Inductive outcome (A : Type) : Type :=
| Returns (a : A)
| Faults (f : fault).
Arguments Returns {A} a.
Arguments Faults {A} f.

Definition lift {A : Type} (r : result A) : outcome A :=
  match r with
  | Ok a => Returns a
  | Throw e => Faults (raised e)
  end.

Definition and_then {A B : Type} (m : outcome A) (k : A -> outcome B)
  : outcome B :=
  match m with
  | Returns a => k a
  | Faults f => Faults f
  end.

(** ** Result<T>::unwrap *)

(** [T unwrap()] *)
Definition unwrap {T Context : Type} (r : Result T Context) : outcome T :=
  match _error r with
  | Some e => Faults (raised (runtime_error (message e)))
  | None =>
      match _result r with
      | Some v => Returns v
      | None => Faults bad_optional_access
      end
  end.

(** ** Signing and the signed envelope *)

Module Signed.

(** [struct CompiledTransaction]: the message and the signatures, each
    signature a [std::string] of bytes. *)
Record t : Type := mk {
  message : CompiledTransaction.Message.t;
  signatures : list (list Z)
}.

Section Sign.

(** libsodium's [crypto_sign_detached(sig, &sigSize, m, mlen, sk)] as a
    function from the message and the secret key to its return value and
    the [sigSize] bytes it writes. *)
Variable crypto_sign_detached : list Z -> list Z -> Z * list Z.

(** [std::string Keypair::sign(const std::vector<uint8_t> message) const] *)
Definition Keypair_sign (signer : Keypair) (message : list Z)
  : result (list Z) :=
  let '(rc, sig) := crypto_sign_detached message (secretKey signer) in
  if negb (0 =? rc) then
    Throw (runtime_error "could not sign tx with private key")
  else Ok sig.

(** The loop of [CompiledTransaction::sign]. *)
Fixpoint sign_each (signers : list Keypair) (serialized_message : list Z)
    (signatures : list (list Z)) : result (list (list Z)) :=
  match signers with
  | [] => Ok signatures
  | signer :: signers' =>
      sig <- Keypair_sign signer serialized_message ;;
      sign_each signers' serialized_message (signatures ++ [sig])
  end.

(** [void sign(const std::vector<uint8_t>& serialized_message,
               const std::vector<Keypair>& signers)] *)
Definition sign (tx : t) (serialized_message : list Z)
    (signers : list Keypair) : outcome t :=
  if negb (length (signatures tx) =? 0)%nat then Faults assertion_failed
  else
    and_then (lift (sign_each signers serialized_message (signatures tx)))
             (fun sigs => Returns (mk (message tx) sigs)).

End Sign.

Section Envelope.

Variable encode_length : nat -> list Z.

(** The loop over [signatures] in [CompiledTransaction::serialize]. *)
Fixpoint append_signatures (sigs : list (list Z)) (buffer : list Z)
  : outcome (list Z) :=
  match sigs with
  | [] => Returns buffer
  | signature :: sigs' =>
      if negb (length signature =? 64)%nat then Faults assertion_failed
      else append_signatures sigs' (buffer ++ signature)
  end.

(** [std::vector<uint8_t> serialize(std::vector<uint8_t>&
    serialized_message)] *)
Definition serialize (tx : t) (serialized_message : list Z)
  : outcome (list Z) :=
  let buffer := [] in
  let signaturesLength := encode_length (length (signatures tx)) in
  let buffer := buffer ++ signaturesLength in
  and_then (append_signatures (signatures tx) buffer)
    (fun buffer =>
       if (length serialized_message =? 0)%nat then
         Faults (raised (runtime_error "Message is not serialized"))
       else Returns (buffer ++ serialized_message)).

End Envelope.

End Signed.

(** The part of [Connection::sign_and_send_transaction] between fetching
    the blockhash and posting the bytes: compile, serialize the message,
    sign it, serialize the envelope. *)
Definition sign_and_send_transaction_bytes
    (encode_length : nat -> list Z)
    (crypto_sign_detached : list Z -> list Z -> Z * list Z)
    (transaction_message : Transaction.Message.t) (signers : list Keypair)
  : outcome (list Z) :=
  and_then (lift (Transaction.Message.compile transaction_message signers))
    (fun compiled_message =>
       let compiled_transaction := Signed.mk compiled_message [] in
       let serialized_message := [] in
       and_then
         (lift (CompiledTransaction.Message.serialize
                  encode_length compiled_message serialized_message))
         (fun serialized_message =>
            and_then
              (Signed.sign crypto_sign_detached compiled_transaction
                           serialized_message signers)
              (fun compiled_transaction =>
                 Signed.serialize encode_length compiled_transaction
                                  serialized_message))).

(** ** Transaction and the token helpers *)

(** [struct Transaction] *)
Record Transaction_t : Type := mkTransaction {
  tx_signatures : list (list Z);
  tx_message : Transaction.Message.t
}.

(** [void Transaction::add(Instruction instruction)] *)
Definition Transaction_add (tx : Transaction_t)
    (instruction : Transaction.Message.Instruction) : Transaction_t :=
  mkTransaction (tx_signatures tx)
    (Transaction.Message.mk
       (Transaction.Message.header (tx_message tx))
       (Transaction.Message.accountKeys (tx_message tx))
       (Transaction.Message.recentBlockhash (tx_message tx))
       (Transaction.Message.instructions (tx_message tx) ++ [instruction])).

(** [Transaction tx;]: nothing initialises the header bytes. *)
Definition Transaction_default (indeterminate : TransactionMessageHeader)
  : Transaction_t :=
  mkTransaction []
    (Transaction.Message.mk indeterminate [] PublicKey_default []).

(** [j.get<bool>()] *)
Definition Json_get_bool (j : Json.json) : result bool :=
  match j with
  | Json.boolean b => Ok b
  | _ => Throw json_exception
  end.

(** [j.get<std::vector<A>>()], given [j.get<A>()]. *)
Fixpoint get_each {A : Type} (get : Json.json -> result A)
    (elements : list Json.json) : result (list A) :=
  match elements with
  | [] => Ok []
  | j :: elements' =>
      a <- get j ;;
      rest <- get_each get elements' ;;
      Ok (a :: rest)
  end.

Definition Json_get_vector {A : Type} (get : Json.json -> result A)
    (j : Json.json) : result (list A) :=
  match j with
  | Json.array elements => get_each get elements
  | _ => Throw json_exception
  end.

(** [void from_json(const nlohmann::json& j, PublicKey& pubkey)] *)
Definition PublicKey_from_json (indeterminate : list Z) (j : Json.json)
  : result PublicKey :=
  s <- Json.get_string j ;;
  Ok (PublicKey_of_string indeterminate s).

(** [void from_json(const json& j, AccountMeta& accountMeta)] *)
Definition AccountMeta_from_json (indeterminate : list Z) (j : Json.json)
  : result Transaction.Message.AccountMeta :=
  jp <- Json.at_key j "pubkey" ;;
  pubkey <- PublicKey_from_json indeterminate jp ;;
  js <- Json.at_key j "isSigner" ;;
  isSigner <- Json_get_bool js ;;
  jw <- Json.at_key j "isWritable" ;;
  isWritable <- Json_get_bool jw ;;
  Ok (Transaction.Message.mkAccountMeta pubkey isSigner isWritable).

(** The macro [SYSTEM_PROGRAM]. *)
Definition SYSTEM_PROGRAM (indeterminate : list Z) : PublicKey :=
  PublicKey_of_string indeterminate "11111111111111111111111111111111".

(** One element of the [json accounts] literal. *)
Definition account_json (pubkey : PublicKey) (isSigner isWritable : bool)
  : Json.json :=
  Json.object [("pubkey", Json.str (to_base58 pubkey));
               ("isSigner", Json.boolean isSigner);
               ("isWritable", Json.boolean isWritable)].

(** [token::create_associated_token_account_instruction]; the account list
    is written as JSON and converted to [std::vector<AccountMeta>]. *)
Definition create_associated_token_account_instruction
    (indeterminate : list Z)
    (payer associatedToken owner mint programId associatedTokenProgramId
       : PublicKey)
  : result Transaction.Message.Instruction :=
  let accounts :=
    Json.array
      [account_json payer true true;
       account_json associatedToken false true;
       account_json owner false false;
       account_json mint false false;
       account_json (SYSTEM_PROGRAM indeterminate) false false;
       account_json programId false false] in
  accounts <- Json_get_vector (AccountMeta_from_json indeterminate) accounts ;;
  Ok (Transaction.Message.mkInstruction associatedTokenProgramId accounts []).

(** [token::create_associated_token_account_transaction] *)
Definition create_associated_token_account_transaction
    (indeterminate : list Z) (header : TransactionMessageHeader)
    (payer associatedToken owner mint programId associatedTokenProgramId
       : PublicKey)
  : result Transaction_t :=
  let tx := Transaction_default header in
  instruction <-
    create_associated_token_account_instruction indeterminate payer
      associatedToken owner mint programId associatedTokenProgramId ;;
  Ok (Transaction_add tx instruction).

Section TokenAddress.

Variable crypto_hash_sha256 : list Z -> list Z.
Variable ge25519_is_canonical : list Z -> Z.
Variable ge25519_frombytes : list Z -> Z.

(** [token::get_associated_token_address] *)
Definition get_associated_token_address
    (mint owner : PublicKey) (allowOwnerOffCurve : bool)
    (programId associatedTokenProgramId : PublicKey) : result PublicKey :=
  if negb allowOwnerOffCurve
     && negb (is_on_curve ge25519_is_canonical ge25519_frombytes owner)
  then Throw (runtime_error "Token owner is off curve.")
  else
    pda <- find_program_address crypto_hash_sha256 ge25519_is_canonical
             ge25519_frombytes
             [to_buffer owner; to_buffer programId; to_buffer mint]
             associatedTokenProgramId ;;
    Ok (fst pda).

End TokenAddress.

(** Sample signing primitive: the signature repeats the byte sum of the
    message and the key. *)
Definition sample_sign (message secret : list Z) : Z * list Z :=
  (0, repeat ((fold_left Z.add message 0 + fold_left Z.add secret 0) mod 256)
             64).

(** The class of an entry in the order of the sort: writable signers,
    read-only signers, writable non-signers, read-only non-signers. *)
Definition meta_rank (a : Transaction.Message.AccountMeta) : nat :=
  (if Transaction.Message.isSigner a then 0 else 2)
  + (if Transaction.Message.isWritable a then 0 else 1).

Definition rank_le (a b : Transaction.Message.AccountMeta) : Prop :=
  (meta_rank a <= meta_rank b)%nat.

(* ================================================================== *)
(** * Part II: properties                                              *)
(* ================================================================== *)

(** ** Keys, searches and sorting *)

Lemma bytes_eqb_eq (a b : list Z) : bytes_eqb a b = true <-> a = b.
Proof.
  revert b; induction a as [|x a IH]; intros [|y b]; simpl;
    try (split; [discriminate | congruence]); try tauto.
  destruct (Z.eqb_spec x y) as [->|Hne]; simpl.
  - rewrite IH. split; congruence.
  - split; [discriminate | congruence].
Qed.

Lemma pubkey_eqb_eq (a b : PublicKey) : pubkey_eqb a b = true <-> a = b.
Proof.
  unfold pubkey_eqb. rewrite bytes_eqb_eq.
  destruct a, b; simpl. split; congruence.
Qed.

Lemma pubkey_eqb_refl (a : PublicKey) : pubkey_eqb a a = true.
Proof. now apply pubkey_eqb_eq. Qed.

Lemma pubkey_eqb_neq (a b : PublicKey) : pubkey_eqb a b = false <-> a <> b.
Proof.
  rewrite <- pubkey_eqb_eq. destruct (pubkey_eqb a b); split; congruence.
Qed.

Lemma PublicKey_eq_dec (a b : PublicKey) : {a = b} + {a <> b}.
Proof.
  destruct (pubkey_eqb a b) eqn:E.
  - left. now apply pubkey_eqb_eq.
  - right. now apply pubkey_eqb_neq.
Qed.

Section StdFind.

Context {A : Type} (p : A -> bool).

Lemma std_find_le (v : list A) : (std_find p v <= length v)%nat.
Proof. induction v as [|y v IH]; simpl; [|destruct (p y)]; lia. Qed.

Lemma std_find_end (v : list A) :
  std_find p v = length v <-> (forall x, In x v -> p x = false).
Proof.
  induction v as [|y v IH]; simpl.
  - split; [intros _ x [] | reflexivity].
  - destruct (p y) eqn:Hy.
    + split; [discriminate|]. intros H.
      rewrite (H y (or_introl eq_refl)) in Hy. discriminate.
    + split.
      * intros H x [<-|Hx]; [assumption|]. apply IH; [lia | assumption].
      * intros H. f_equal. apply IH. intros x Hx. apply H. now right.
Qed.

Lemma std_find_found (v : list A) (d : A) :
  (std_find p v < length v)%nat -> p (nth (std_find p v) v d) = true.
Proof.
  induction v as [|y v IH]; simpl; [lia|].
  destruct (p y) eqn:Hy; [easy|]. intros H. apply IH. lia.
Qed.

Lemma std_find_first (v : list A) (d : A) (i : nat) :
  (i < std_find p v)%nat -> p (nth i v d) = false.
Proof.
  revert i; induction v as [|y v IH]; simpl; intros i Hi; [lia|].
  destruct (p y) eqn:Hy; [lia|].
  destruct i as [|i]; [assumption|]. apply IH. lia.
Qed.

Lemma std_find_exists (v : list A) (x : A) :
  In x v -> p x = true -> (std_find p v < length v)%nat.
Proof.
  intros Hin Hp. pose proof (std_find_le v) as Hle.
  destruct (Nat.eq_dec (std_find p v) (length v)) as [E|]; [|lia].
  rewrite std_find_end in E. rewrite (E x Hin) in Hp. discriminate.
Qed.

End StdFind.

Lemma find_key_In (keys : list PublicKey) (k : PublicKey) :
  In k keys <->
  (std_find (fun x => pubkey_eqb x k) keys < length keys)%nat.
Proof.
  split.
  - intros H. apply std_find_exists with (x := k); [assumption|].
    apply pubkey_eqb_refl.
  - intros H.
    pose proof (std_find_found (fun x => pubkey_eqb x k) keys k H) as Hp.
    apply pubkey_eqb_eq in Hp. rewrite <- Hp. now apply nth_In.
Qed.

Lemma find_key_nth (keys : list PublicKey) (k d : PublicKey) :
  In k keys -> nth (std_find (fun x => pubkey_eqb x k) keys) keys d = k.
Proof.
  intros H. apply find_key_In in H.
  apply (std_find_found _ keys d) in H. now apply pubkey_eqb_eq in H.
Qed.

Lemma sorted_insert_perm {A} (less : A -> A -> bool) (x : A) (v : list A) :
  Permutation (sorted_insert less x v) (x :: v).
Proof.
  induction v as [|y v IH]; simpl; [reflexivity|].
  destruct (less x y); [reflexivity|].
  rewrite IH. apply perm_swap.
Qed.

Lemma std_sort_perm {A} (less : A -> A -> bool) (v : list A) :
  Permutation (std_sort less v) v.
Proof.
  induction v as [|x v IH]; simpl; [reflexivity|].
  rewrite sorted_insert_perm. now constructor.
Qed.

(** ** The comparator of [compile] *)

Lemma bytes_ltb_asym (a b : list Z) :
  bytes_ltb a b = true -> bytes_ltb b a = false.
Proof.
  revert b; induction a as [|x a IH]; intros [|y b]; simpl;
    try discriminate; try reflexivity.
  destruct (Z.ltb_spec x y), (Z.ltb_spec y x), (Z.gtb_spec x y),
    (Z.gtb_spec y x); try lia; try discriminate; try reflexivity.
  apply IH.
Qed.

Lemma bytes_ltb_total (a b : list Z) :
  length a = length b ->
  bytes_ltb a b = false -> bytes_ltb b a = false -> a = b.
Proof.
  revert b; induction a as [|x a IH]; intros [|y b]; simpl;
    try discriminate; try reflexivity.
  intros [= Hlen].
  destruct (Z.ltb_spec x y), (Z.ltb_spec y x), (Z.gtb_spec x y),
    (Z.gtb_spec y x); try lia; try discriminate.
  intros Hab Hba. assert (x = y) by lia. subst y. f_equal. now apply IH.
Qed.

Lemma meta_less_asym (a b : TM.AccountMeta) :
  TM.meta_less a b = true -> TM.meta_less b a = false.
Proof.
  unfold TM.meta_less, pubkey_ltb.
  destruct (TM.isSigner a), (TM.isSigner b), (TM.isWritable a),
    (TM.isWritable b); simpl; try discriminate; try reflexivity;
    apply bytes_ltb_asym.
Qed.

(** Two entries that the comparator does not tell apart are the same
    entry, so the order [std::sort] leaves them in cannot be observed. *)
Lemma meta_less_equiv (a b : TM.AccountMeta) :
  length (bytes (TM.pubkey a)) = length (bytes (TM.pubkey b)) ->
  TM.meta_less a b = false -> TM.meta_less b a = false -> a = b.
Proof.
  destruct a as [[ka] sa wa], b as [[kb] sb wb].
  unfold TM.meta_less, pubkey_ltb. simpl. intros Hlen.
  destruct sa, sb, wa, wb; simpl; try discriminate;
    intros H1 H2; now rewrite (bytes_ltb_total ka kb Hlen H1 H2).
Qed.

Lemma sorted_insert_ordered {A} (less : A -> A -> bool) (x : A) (v : list A) :
  (forall a b, less a b = true -> less b a = false) ->
  ordered less v = true -> ordered less (sorted_insert less x v) = true.
Proof.
  intros Hasym. induction v as [|y v IH]; intros Hv; [reflexivity|].
  cbn [sorted_insert]. destruct (less x y) eqn:Hxy.
  - cbn [ordered]. rewrite (Hasym _ _ Hxy). simpl. exact Hv.
  - destruct v as [|z v].
    + cbn [sorted_insert ordered]. rewrite Hxy. reflexivity.
    + cbn [ordered] in Hv. apply andb_true_iff in Hv. destruct Hv as [Hyz Hv].
      specialize (IH Hv). cbn [sorted_insert] in *.
      destruct (less x z) eqn:Hxz.
      * cbn [ordered]. rewrite Hxy. simpl. exact IH.
      * cbn [ordered] in *. rewrite Hyz. simpl. exact IH.
Qed.

Lemma std_sort_ordered {A} (less : A -> A -> bool) (v : list A) :
  (forall a b, less a b = true -> less b a = false) ->
  ordered less (std_sort less v) = true.
Proof.
  intros Hasym. induction v as [|x v IH]; [reflexivity|].
  simpl. now apply sorted_insert_ordered.
Qed.

Lemma sorted_metas_ordered (metas : list TM.AccountMeta) :
  ordered TM.meta_less (std_sort TM.meta_less metas) = true.
Proof. apply std_sort_ordered. exact meta_less_asym. Qed.

Lemma bytes_ltb_trans (a b c : list Z) :
  length a = length b -> length b = length c ->
  bytes_ltb b a = false -> bytes_ltb c b = false -> bytes_ltb c a = false.
Proof.
  revert b c; induction a as [|x a IH]; intros [|y b] [|z c]; simpl;
    try discriminate; try reflexivity.
  intros [= Hab] [= Hbc].
  destruct (Z.ltb_spec y x), (Z.gtb_spec y x), (Z.ltb_spec z y),
    (Z.gtb_spec z y), (Z.ltb_spec z x), (Z.gtb_spec z x);
    try lia; try discriminate; try reflexivity.
  now apply IH.
Qed.

Lemma meta_less_trans (a b c : TM.AccountMeta) :
  length (bytes (TM.pubkey a)) = length (bytes (TM.pubkey b)) ->
  length (bytes (TM.pubkey b)) = length (bytes (TM.pubkey c)) ->
  TM.meta_less b a = false -> TM.meta_less c b = false ->
  TM.meta_less c a = false.
Proof.
  unfold TM.meta_less, pubkey_ltb. intros Hab Hbc.
  destruct (TM.isSigner a), (TM.isSigner b), (TM.isSigner c),
    (TM.isWritable a), (TM.isWritable b), (TM.isWritable c); simpl;
    try discriminate; try reflexivity; now apply bytes_ltb_trans.
Qed.

(** An ordered permutation of a list is unique when the comparator is a
    total order on the elements at hand; whatever [std::sort] does inside,
    its result is that list. *)
Section OrderedUnique.

Context {A : Type} (less : A -> A -> bool) (wf : A -> Prop).
Hypothesis less_trans : forall a b c, wf a -> wf b -> wf c ->
  less b a = false -> less c b = false -> less c a = false.
Hypothesis less_equiv : forall a b, wf a -> wf b ->
  less a b = false -> less b a = false -> a = b.

Lemma ordered_tail (x : A) (l : list A) :
  ordered less (x :: l) = true -> ordered less l = true.
Proof.
  destruct l as [|y l]; [reflexivity|]. cbn [ordered].
  intros H. now apply andb_true_iff in H.
Qed.

Lemma ordered_head (x : A) (l : list A) :
  Forall wf (x :: l) -> ordered less (x :: l) = true ->
  forall y, In y l -> less y x = false.
Proof.
  revert x; induction l as [|z l IH]; intros x Hwf Ho y Hy; [destruct Hy|].
  cbn [ordered] in Ho. apply andb_true_iff in Ho. destruct Ho as [Hzx Ho].
  apply negb_true_iff in Hzx.
  inversion Hwf as [|? ? Hx Hwf']; subst.
  destruct Hy as [<-|Hy]; [assumption|].
  pose proof (IH z Hwf' Ho y Hy) as Hyz.
  inversion Hwf' as [|? ? Hz Hl]; subst.
  apply less_trans with (b := z); try assumption.
  rewrite Forall_forall in Hl. now apply Hl.
Qed.

Lemma ordered_perm_unique (l1 l2 : list A) :
  Forall wf l1 -> Permutation l1 l2 ->
  ordered less l1 = true -> ordered less l2 = true -> l1 = l2.
Proof.
  revert l2; induction l1 as [|x l1 IH]; intros l2 Hwf Hp H1 H2.
  - apply Permutation_nil in Hp. now subst.
  - destruct l2 as [|y l2].
    { symmetry in Hp. apply Permutation_nil in Hp. discriminate. }
    assert (Hwf2 : Forall wf (y :: l2)).
    { apply Forall_forall. intros z Hz. rewrite Forall_forall in Hwf.
      apply Hwf. eapply Permutation_in; [symmetry; exact Hp | exact Hz]. }
    assert (Hxy : x = y).
    { destruct (Permutation_in x Hp (or_introl eq_refl)) as [E|Hx2];
        [now symmetry|].
      assert (Hy1 : In y (x :: l1))
        by (eapply Permutation_in; [symmetry; exact Hp | now left]).
      destruct Hy1 as [E|Hy1]; [assumption|].
      inversion Hwf as [|? ? Hx _]; inversion Hwf2 as [|? ? Hy _]; subst.
      apply less_equiv; try assumption.
      - apply (ordered_head y l2 Hwf2 H2 x Hx2).
      - apply (ordered_head x l1 Hwf H1 y Hy1). }
    subst y. f_equal. apply IH.
    + now inversion Hwf.
    + now apply Permutation_cons_inv with (a := x).
    + now apply ordered_tail with (x := x).
    + now apply ordered_tail with (x := x).
Qed.

End OrderedUnique.

Lemma std_sort_unique (metas out : list TM.AccountMeta) :
  Forall (fun a => length (bytes (TM.pubkey a)) = PUBLIC_KEY_LENGTH) metas ->
  Permutation out metas -> ordered TM.meta_less out = true ->
  out = std_sort TM.meta_less metas.
Proof.
  intros Hwf Hp Ho. symmetry.
  apply (ordered_perm_unique TM.meta_less
           (fun a => length (bytes (TM.pubkey a)) = PUBLIC_KEY_LENGTH)).
  - intros a b c Ha Hb Hc. apply meta_less_trans; congruence.
  - intros a b Ha Hb. apply meta_less_equiv. congruence.
  - apply Forall_forall. intros a Ha. rewrite Forall_forall in Hwf.
    apply Hwf. eapply Permutation_in; [apply std_sort_perm | exact Ha].
  - rewrite std_sort_perm. now symmetry.
  - apply sorted_metas_ordered.
  - exact Ho.
Qed.

Lemma erase_split {A} (v : list A) (i : nat) (d : A) :
  (i < length v)%nat -> v = firstn i v ++ nth i v d :: skipn (S i) v.
Proof.
  revert i; induction v as [|y v IH]; simpl; intros i Hi; [lia|].
  destruct i as [|i]; simpl; [reflexivity|].
  f_equal. apply IH. lia.
Qed.

(** ** The account-meta list built by [compile] *)

Lemma collect_account_incl (metas : list TM.AccountMeta) (a : TM.AccountMeta) :
  incl metas (TM.collect_account metas a).
Proof.
  unfold TM.collect_account.
  destruct (_ =? _)%nat; [apply incl_appl|]; apply incl_refl.
Qed.

Lemma collect_account_key (metas : list TM.AccountMeta) (a : TM.AccountMeta) :
  In (TM.pubkey a) (map TM.pubkey (TM.collect_account metas a)).
Proof.
  unfold TM.collect_account.
  destruct (Nat.eqb_spec
              (std_find (fun m => TM.meta_eqb m a) metas) (length metas))
    as [E|E].
  - rewrite map_app, in_app_iff. right. now left.
  - pose proof (std_find_le (fun m => TM.meta_eqb m a) metas) as Hle.
    assert (Hlt : (std_find (fun m => TM.meta_eqb m a) metas
                   < length metas)%nat) by lia.
    pose proof (std_find_found _ metas a Hlt) as Hp.
    apply pubkey_eqb_eq in Hp. rewrite <- Hp.
    apply in_map. now apply nth_In.
Qed.

Lemma fold_collect_account_incl (accs metas : list TM.AccountMeta) :
  incl metas (fold_left TM.collect_account accs metas).
Proof.
  revert metas; induction accs as [|a accs IH]; intros metas; simpl.
  - apply incl_refl.
  - eapply incl_tran; [apply collect_account_incl | apply IH].
Qed.

Lemma fold_collect_account_key (accs metas : list TM.AccountMeta)
    (a : TM.AccountMeta) :
  In a accs ->
  In (TM.pubkey a) (map TM.pubkey (fold_left TM.collect_account accs metas)).
Proof.
  revert metas; induction accs as [|b accs IH]; intros metas [].
  - subst b. simpl.
    pose proof (collect_account_key metas a) as H.
    apply in_map_iff in H. destruct H as [m [Hk Hm]].
    rewrite <- Hk. apply in_map.
    now apply fold_collect_account_incl.
  - simpl. now apply IH.
Qed.

Lemma collect_accounts_from_incl (instrs : list TM.Instruction)
    (metas : list TM.AccountMeta) :
  incl metas
    (fold_left (fun accountMetas instruction =>
                  fold_left TM.collect_account (TM.accounts instruction)
                            accountMetas)
               instrs metas).
Proof.
  revert metas; induction instrs as [|i instrs IH]; intros metas; simpl.
  - apply incl_refl.
  - eapply incl_tran; [apply fold_collect_account_incl | apply IH].
Qed.

Lemma collect_accounts_from_key (instrs : list TM.Instruction)
    (metas : list TM.AccountMeta) (i : TM.Instruction) (a : TM.AccountMeta) :
  In i instrs -> In a (TM.accounts i) ->
  In (TM.pubkey a)
     (map TM.pubkey
        (fold_left (fun accountMetas instruction =>
                      fold_left TM.collect_account (TM.accounts instruction)
                                accountMetas)
                   instrs metas)).
Proof.
  revert metas; induction instrs as [|j instrs IH]; intros metas [] Ha.
  - subst j. simpl.
    pose proof (fold_collect_account_key (TM.accounts i) metas a Ha) as H.
    apply in_map_iff in H. destruct H as [m [Hk Hm]].
    rewrite <- Hk. apply in_map.
    now apply collect_accounts_from_incl.
  - simpl. now apply IH.
Qed.

Lemma collect_accounts_key (instrs : list TM.Instruction)
    (i : TM.Instruction) (a : TM.AccountMeta) :
  In i instrs -> In a (TM.accounts i) ->
  In (TM.pubkey a) (map TM.pubkey (TM.collect_accounts instrs)).
Proof. apply collect_accounts_from_key. Qed.

Lemma collect_program_inv (instrs : list TM.Instruction)
    (pids : list PublicKey) (metas : list TM.AccountMeta) :
  incl pids (map TM.pubkey metas) ->
  let st := fold_left TM.collect_program instrs (pids, metas) in
  incl metas (snd st)
  /\ incl pids (fst st)
  /\ incl (fst st) (map TM.pubkey (snd st))
  /\ (forall i, In i instrs -> In (TM.programId i) (fst st)).
Proof.
  revert pids metas; induction instrs as [|j instrs IH];
    intros pids metas Hinv; simpl.
  - repeat split; try apply incl_refl; [assumption | intros i []].
  - set (found := (std_find (fun p => pubkey_eqb p (TM.programId j)) pids
                   =? length pids)%nat).
    destruct found eqn:Hf; subst found.
    + specialize (IH (pids ++ [TM.programId j])
                     (metas ++ [TM.mkAccountMeta (TM.programId j) false false])).
      destruct IH as (H1 & H2 & H3 & H4).
      { rewrite map_app. simpl. intros x Hx.
        apply in_app_iff in Hx. apply in_app_iff.
        destruct Hx as [Hx|Hx]; [left; now apply Hinv | now right]. }
      repeat split; try assumption.
      * eapply incl_tran; [apply incl_appl, incl_refl | exact H1].
      * eapply incl_tran; [apply incl_appl, incl_refl | exact H2].
      * intros i [<-|Hi]; [|now apply H4].
        apply H2. apply in_app_iff. right. now left.
    + specialize (IH pids metas Hinv). destruct IH as (H1 & H2 & H3 & H4).
      repeat split; try assumption.
      intros i [<-|Hi]; [|now apply H4].
      apply H2. apply find_key_In.
      apply Nat.eqb_neq in Hf.
      pose proof (std_find_le (fun p => pubkey_eqb p (TM.programId j)) pids).
      lia.
Qed.

Lemma collect_programs_incl (instrs : list TM.Instruction)
    (metas : list TM.AccountMeta) :
  incl metas (TM.collect_programs instrs metas).
Proof.
  unfold TM.collect_programs.
  apply (collect_program_inv instrs [] metas). intros x [].
Qed.

Lemma collect_programs_key (instrs : list TM.Instruction)
    (metas : list TM.AccountMeta) (i : TM.Instruction) :
  In i instrs ->
  In (TM.programId i) (map TM.pubkey (TM.collect_programs instrs metas)).
Proof.
  intros Hi. unfold TM.collect_programs.
  destruct (collect_program_inv instrs [] metas) as (_ & _ & H3 & H4).
  { intros x []. }
  apply H3. now apply H4.
Qed.

(** What moving the fee payer does to the list: the entry with the payer's
    key, if there is one, is taken out at the first place it occurs, and an
    entry [(fee_payer, true, true)] is put in front. *)
Lemma move_fee_payer_present (metas : list TM.AccountMeta)
    (fee_payer : PublicKey) :
  In fee_payer (map TM.pubkey metas) ->
  TM.move_fee_payer metas fee_payer =
  TM.mkAccountMeta fee_payer true true
    :: erase metas (std_find (fun m => TM.meta_eqb_key m fee_payer) metas).
Proof.
  intros Hin. unfold TM.move_fee_payer, TM.meta_eqb_key.
  set (p := fun m => pubkey_eqb (TM.pubkey m) fee_payer).
  set (d := TM.mkAccountMeta fee_payer true true).
  apply in_map_iff in Hin. destruct Hin as [m [Hm Hin]].
  assert (Hlt : (std_find p metas < length metas)%nat).
  { apply std_find_exists with (x := m); [assumption|].
    unfold p. rewrite Hm. apply pubkey_eqb_refl. }
  destruct (Nat.eqb_spec (std_find p metas) (length metas)) as [E|E];
    [lia|]. simpl.
  assert (Hp : TM.pubkey (nth (std_find p metas) metas d) = fee_payer).
  { apply pubkey_eqb_eq. apply (std_find_found p metas d Hlt). }
  now rewrite Hp.
Qed.

Lemma move_fee_payer_absent (metas : list TM.AccountMeta)
    (fee_payer : PublicKey) :
  ~ In fee_payer (map TM.pubkey metas) ->
  TM.move_fee_payer metas fee_payer =
  TM.mkAccountMeta fee_payer true true :: metas.
Proof.
  intros Hin. unfold TM.move_fee_payer, TM.meta_eqb_key.
  set (p := fun m => pubkey_eqb (TM.pubkey m) fee_payer).
  set (d := TM.mkAccountMeta fee_payer true true).
  pose proof (std_find_le p metas) as Hle.
  destruct (Nat.eqb_spec (std_find p metas) (length metas)) as [E|E];
    [reflexivity|]. exfalso. apply Hin.
  assert (Hlt : (std_find p metas < length metas)%nat) by lia.
  assert (Hp : TM.pubkey (nth (std_find p metas) metas d) = fee_payer).
  { apply pubkey_eqb_eq. apply (std_find_found p metas d Hlt). }
  rewrite <- Hp. apply in_map. now apply nth_In.
Qed.

Lemma move_fee_payer_head (metas : list TM.AccountMeta)
    (fee_payer : PublicKey) :
  exists rest,
    TM.move_fee_payer metas fee_payer =
    TM.mkAccountMeta fee_payer true true :: rest.
Proof.
  destruct (in_dec PublicKey_eq_dec fee_payer (map TM.pubkey metas))
    as [Hin|Hin].
  - eexists. now apply move_fee_payer_present.
  - eexists. now apply move_fee_payer_absent.
Qed.

Lemma move_fee_payer_keys (metas : list TM.AccountMeta)
    (fee_payer k : PublicKey) :
  In k (map TM.pubkey metas) ->
  In k (map TM.pubkey (TM.move_fee_payer metas fee_payer)).
Proof.
  intros Hk. unfold TM.move_fee_payer.
  set (p := fun m => TM.meta_eqb_key m fee_payer).
  pose proof (std_find_le p metas) as Hle.
  destruct (Nat.eqb_spec (std_find p metas) (length metas)) as [E|E]; simpl.
  - now right.
  - assert (Hlt : (std_find p metas < length metas)%nat) by lia.
    set (d := TM.mkAccountMeta fee_payer true true).
    rewrite (erase_split metas (std_find p metas) d Hlt) in Hk.
    rewrite map_app, in_app_iff in Hk. simpl in Hk.
    unfold erase. rewrite map_app, in_app_iff.
    destruct Hk as [Hk|[Hk|Hk]]; auto.
Qed.

(** ** Splitting signed from unsigned keys *)

Lemma split_keys_snoc (metas : list TM.AccountMeta) (a : TM.AccountMeta) :
  TM.split_keys (metas ++ [a]) = TM.split_step (TM.split_keys metas) a.
Proof. unfold TM.split_keys. now rewrite fold_left_app. Qed.

Lemma uint8_succ (n : nat) :
  uint8 (uint8 (Z.of_nat n) + 1) = uint8 (Z.of_nat (S n)).
Proof.
  unfold uint8. rewrite Z.add_mod_idemp_l by lia. f_equal. lia.
Qed.

Lemma split_keys_signed (metas : list TM.AccountMeta) :
  TM.signedKeys (TM.split_keys metas)
  = map TM.pubkey (filter TM.isSigner metas).
Proof.
  induction metas as [|a metas IH] using rev_ind; [reflexivity|].
  rewrite split_keys_snoc, filter_app, map_app. unfold TM.split_step. simpl.
  destruct (TM.isSigner a); simpl; rewrite IH; [reflexivity|].
  now rewrite app_nil_r.
Qed.

Lemma split_keys_unsigned (metas : list TM.AccountMeta) :
  TM.unsignedKeys (TM.split_keys metas)
  = map TM.pubkey (filter (fun a => negb (TM.isSigner a)) metas).
Proof.
  induction metas as [|a metas IH] using rev_ind; [reflexivity|].
  rewrite split_keys_snoc, filter_app, map_app. unfold TM.split_step. simpl.
  destruct (TM.isSigner a); simpl; rewrite IH; [|reflexivity].
  now rewrite app_nil_r.
Qed.

Lemma split_keys_required (metas : list TM.AccountMeta) :
  TM.n_required (TM.split_keys metas)
  = uint8 (Z.of_nat (length (filter TM.isSigner metas))).
Proof.
  induction metas as [|a metas IH] using rev_ind; [reflexivity|].
  rewrite split_keys_snoc, filter_app, length_app. unfold TM.split_step.
  simpl. destruct (TM.isSigner a); simpl; rewrite IH.
  - rewrite uint8_succ. f_equal. lia.
  - f_equal. lia.
Qed.

Lemma split_keys_readonly_signed (metas : list TM.AccountMeta) :
  TM.n_readonly_signed (TM.split_keys metas)
  = uint8 (Z.of_nat (length (filter (fun a => TM.isSigner a
                                        && negb (TM.isWritable a)) metas))).
Proof.
  induction metas as [|a metas IH] using rev_ind; [reflexivity|].
  rewrite split_keys_snoc, filter_app, length_app. unfold TM.split_step.
  simpl. destruct (TM.isSigner a), (TM.isWritable a); simpl; rewrite IH;
    try (f_equal; lia).
  rewrite uint8_succ. f_equal. lia.
Qed.

Lemma split_keys_readonly_unsigned (metas : list TM.AccountMeta) :
  TM.n_readonly_unsigned (TM.split_keys metas)
  = uint8 (Z.of_nat (length (filter (fun a => negb (TM.isSigner a)
                                        && negb (TM.isWritable a)) metas))).
Proof.
  induction metas as [|a metas IH] using rev_ind; [reflexivity|].
  rewrite split_keys_snoc, filter_app, length_app. unfold TM.split_step.
  simpl. destruct (TM.isSigner a), (TM.isWritable a); simpl; rewrite IH;
    try (f_equal; lia).
  rewrite uint8_succ. f_equal. lia.
Qed.

Lemma split_keys_all (metas : list TM.AccountMeta) (k : PublicKey) :
  In k (map TM.pubkey metas) ->
  In k (TM.signedKeys (TM.split_keys metas)
          ++ TM.unsignedKeys (TM.split_keys metas)).
Proof.
  rewrite split_keys_signed, split_keys_unsigned, in_app_iff.
  intros H. apply in_map_iff in H. destruct H as [m [<- Hm]].
  destruct (TM.isSigner m) eqn:Hs.
  - left. apply in_map. apply filter_In. now split.
  - right. apply in_map. apply filter_In. split; [assumption|].
    now rewrite Hs.
Qed.

Lemma ordered_metas_key (instrs : list TM.Instruction) (fee_payer : PublicKey)
    (k : PublicKey) :
  In k (map TM.pubkey
          (TM.collect_programs instrs (TM.collect_accounts instrs))) ->
  In k (map TM.pubkey (TM.ordered_metas instrs fee_payer)).
Proof.
  intros H. unfold TM.ordered_metas. apply move_fee_payer_keys.
  eapply Permutation_in; [|exact H].
  apply Permutation_map. symmetry. apply std_sort_perm.
Qed.

Lemma final_keys_account (instrs : list TM.Instruction)
    (fee_payer : PublicKey) (i : TM.Instruction) (a : TM.AccountMeta) :
  In i instrs -> In a (TM.accounts i) ->
  In (TM.pubkey a) (final_keys instrs fee_payer).
Proof.
  intros Hi Ha. unfold final_keys. apply split_keys_all.
  apply ordered_metas_key.
  pose proof (collect_accounts_key instrs i a Hi Ha) as H.
  apply in_map_iff in H. destruct H as [m [<- Hm]].
  apply in_map. now apply collect_programs_incl.
Qed.

Lemma final_keys_program (instrs : list TM.Instruction)
    (fee_payer : PublicKey) (i : TM.Instruction) :
  In i instrs -> In (TM.programId i) (final_keys instrs fee_payer).
Proof.
  intros Hi. unfold final_keys. apply split_keys_all.
  apply ordered_metas_key. now apply collect_programs_key.
Qed.

(** ** Index assignment *)

Lemma account_indexes_ok (keys : list PublicKey) (accs : list TM.AccountMeta)
    (acc r : list Z) :
  TM.account_indexes keys accs acc = Ok r ->
  Forall (fun a => In (TM.pubkey a) keys) accs
  /\ r = acc ++ map (fun a => key_index keys (TM.pubkey a)) accs.
Proof.
  revert acc; induction accs as [|a accs IH]; intros acc; simpl.
  - intros [= <-]. split; [constructor | now rewrite app_nil_r].
  - unfold TM.account_index.
    pose proof (std_find_le (fun k => pubkey_eqb k (TM.pubkey a)) keys).
    destruct (Nat.eqb_spec
                (std_find (fun k => pubkey_eqb k (TM.pubkey a)) keys)
                (length keys)) as [E|E]; simpl; [discriminate|].
    intros Hr. apply IH in Hr. destruct Hr as [Hall ->]. split.
    + constructor; [|assumption]. apply find_key_In. lia.
    + now rewrite <- app_assoc.
Qed.

Lemma account_indexes_unknown (keys : list PublicKey)
    (accs : list TM.AccountMeta) (acc : list Z) :
  Exists (fun a => ~ In (TM.pubkey a) keys) accs ->
  TM.account_indexes keys accs acc = Throw (runtime_error "Unknown account").
Proof.
  intros H; revert acc; induction H as [a accs Ha|a accs _ IH];
    intros acc; simpl; unfold TM.account_index.
  - destruct (Nat.eqb_spec
                (std_find (fun k => pubkey_eqb k (TM.pubkey a)) keys)
                (length keys)) as [E|E]; [reflexivity|].
    exfalso. apply Ha. apply find_key_In.
    pose proof (std_find_le (fun k => pubkey_eqb k (TM.pubkey a)) keys). lia.
  - destruct (_ =? _)%nat; simpl; [reflexivity | apply IH].
Qed.

Lemma account_indexes_total (keys : list PublicKey)
    (accs : list TM.AccountMeta) (acc : list Z) :
  Forall (fun a => In (TM.pubkey a) keys) accs ->
  TM.account_indexes keys accs acc
  = Ok (acc ++ map (fun a => key_index keys (TM.pubkey a)) accs).
Proof.
  intros H; revert acc; induction H as [|a accs Ha _ IH]; intros acc; simpl.
  - now rewrite app_nil_r.
  - unfold TM.account_index. apply find_key_In in Ha.
    destruct (Nat.eqb_spec
                (std_find (fun k => pubkey_eqb k (TM.pubkey a)) keys)
                (length keys)) as [E|E]; [lia|]. simpl.
    rewrite IH. now rewrite <- app_assoc.
Qed.

Lemma compile_instructions_ok (keys : list PublicKey)
    (instrs : list TM.Instruction) (acc r : list CM.Instruction) :
  TM.compile_instructions keys instrs acc = Ok r ->
  Forall (fun i => Forall (fun a => In (TM.pubkey a) keys) (TM.accounts i))
         instrs
  /\ r = acc ++ map (compiled_of keys) instrs.
Proof.
  revert acc; induction instrs as [|i instrs IH]; intros acc; simpl.
  - intros [= <-]. split; [constructor | now rewrite app_nil_r].
  - unfold TM.compile_instruction.
    destruct (TM.account_indexes keys (TM.accounts i) []) as [ix|e] eqn:Hix;
      simpl; [|discriminate].
    apply account_indexes_ok in Hix. destruct Hix as [Hall ->]. simpl.
    intros Hr. apply IH in Hr. destruct Hr as [Hrest ->]. split.
    + now constructor.
    + now rewrite <- app_assoc.
Qed.

Lemma compile_instructions_total (keys : list PublicKey)
    (instrs : list TM.Instruction) (acc : list CM.Instruction) :
  Forall (fun i => Forall (fun a => In (TM.pubkey a) keys) (TM.accounts i))
         instrs ->
  TM.compile_instructions keys instrs acc
  = Ok (acc ++ map (compiled_of keys) instrs).
Proof.
  intros H; revert acc; induction H as [|i instrs Hi _ IH]; intros acc; simpl.
  - now rewrite app_nil_r.
  - unfold TM.compile_instruction.
    rewrite (account_indexes_total keys (TM.accounts i) [] Hi). simpl.
    rewrite IH. now rewrite <- app_assoc.
Qed.

Lemma compile_instructions_unknown (keys : list PublicKey)
    (instrs : list TM.Instruction) (acc : list CM.Instruction) :
  Exists (fun i => Exists (fun a => ~ In (TM.pubkey a) keys) (TM.accounts i))
         instrs ->
  TM.compile_instructions keys instrs acc
  = Throw (runtime_error "Unknown account").
Proof.
  intros H; revert acc; induction H as [i instrs Hi|i instrs _ IH];
    intros acc; simpl; unfold TM.compile_instruction.
  - now rewrite (account_indexes_unknown keys (TM.accounts i) [] Hi).
  - destruct (TM.account_indexes keys (TM.accounts i) []) as [ix|e] eqn:Hix;
      simpl.
    + apply IH.
    + destruct (Exists_dec (fun a => ~ In (TM.pubkey a) keys) (TM.accounts i))
        as [Hex|Hnex].
      * intros a. destruct (in_dec PublicKey_eq_dec (TM.pubkey a) keys);
          [right; tauto | now left].
      * rewrite (account_indexes_unknown keys _ [] Hex) in Hix. congruence.
      * exfalso. rewrite account_indexes_total in Hix; [discriminate|].
        apply Forall_forall. intros a Ha.
        destruct (in_dec PublicKey_eq_dec (TM.pubkey a) keys) as [|Hn];
          [assumption|].
        exfalso. apply Hnex. apply Exists_exists. now exists a.
Qed.

Lemma key_index_valid (keys : list PublicKey) (k : PublicKey) :
  In k keys -> 0 <= key_index keys k < Z.of_nat (length keys).
Proof.
  intros H. apply find_key_In in H. unfold key_index, uint8.
  set (n := std_find (fun x => pubkey_eqb x k) keys) in *.
  pose proof (Z.mod_pos_bound (Z.of_nat n) 256 ltac:(lia)).
  pose proof (Z.mod_le (Z.of_nat n) 256 ltac:(lia) ltac:(lia)). lia.
Qed.

Lemma key_index_resolves (keys : list PublicKey) (k d : PublicKey) :
  (length keys <= 256)%nat -> In k keys ->
  nth (Z.to_nat (key_index keys k)) keys d = k.
Proof.
  intros Hlen H. pose proof H as Hlt. apply find_key_In in Hlt.
  unfold key_index, uint8. rewrite Z.mod_small by lia.
  rewrite Nat2Z.id. now apply find_key_nth.
Qed.

(** [compile] succeeds on every transaction that has an instruction and a
    signer, and its result is determined by the ordered account list. *)
Lemma compile_eq (m : TM.t) (signer0 : Keypair) (rest : list Keypair) :
  TM.instructions m <> [] ->
  let keys := final_keys (TM.instructions m) (publicKey signer0) in
  let s := TM.split_keys
             (TM.ordered_metas (TM.instructions m) (publicKey signer0)) in
  TM.compile m (signer0 :: rest)
  = Ok (CM.mk (mkHeader (TM.n_required s) (TM.n_readonly_signed s)
                        (TM.n_readonly_unsigned s))
              keys (TM.recentBlockhash m)
              (map (compiled_of keys) (TM.instructions m))).
Proof.
  intros Hne keys s. unfold TM.compile.
  destruct (TM.instructions m) as [|i instrs] eqn:Hi; [congruence|].
  fold s. change (TM.signedKeys s ++ TM.unsignedKeys s) with keys.
  rewrite compile_instructions_total; [reflexivity|].
  apply Forall_forall. intros j Hj. apply Forall_forall. intros a Ha.
  now apply final_keys_account with (i := j).
Qed.

(** ** Claims about [compile] *)

(** C1.  The claim: a program address is appended only when it is not already
    present as an account, so no address occurs twice in [accountKeys].
    The program loop of [compile] searches [programIds], not [accountMetas]:
    on [tx_program_as_account], where the program of the second instruction
    is an account of the first, [compile] succeeds and lists [key 7] twice. *)
Theorem compile_program_key_listed_twice :
  exists msg,
    TM.compile tx_program_as_account [payer] = Ok msg
    /\ TM.collect_programs (TM.instructions tx_program_as_account)
         (TM.collect_accounts (TM.instructions tx_program_as_account))
       = [TM.mkAccountMeta (key 1) true true;
          TM.mkAccountMeta (key 7) false false;
          TM.mkAccountMeta (key 3) false true;
          TM.mkAccountMeta (key 5) false false;
          TM.mkAccountMeta (key 7) false false]
    /\ CM.accountKeys msg = [key 1; key 3; key 5; key 7; key 7]
    /\ ~ NoDup (CM.accountKeys msg).
Proof.
  eexists. split; [vm_compute; reflexivity|].
  split; [vm_compute; reflexivity|].
  split; [reflexivity|].
  simpl. intros H.
  inversion H as [|? ? _ H1]; subst.
  inversion H1 as [|? ? _ H2]; subst.
  inversion H2 as [|? ? _ H3]; subst.
  inversion H3 as [|? ? Hn _]; subst.
  apply Hn. now left.
Qed.

(** C4 as stated fails where the count no longer fits eight bits: with 256
    signer entries after the fee payer was moved, [numRequiredSignatures]
    is 0. *)
Lemma compile_256_signers_count_wraps :
  exists msg,
    TM.compile tx_256_signers [signer_of (key 0)] = Ok msg
    /\ length (filter TM.isSigner
                 (TM.ordered_metas (TM.instructions tx_256_signers) (key 0)))
       = 256%nat
    /\ numRequiredSignatures (CM.header msg) = 0
    /\ numRequiredSignatures (CM.header msg)
       <> Z.of_nat
            (length (filter TM.isSigner
                       (TM.ordered_metas (TM.instructions tx_256_signers)
                                         (key 0)))).
Proof.
  eexists. split; [vm_compute; reflexivity|].
  assert (Hlen : length (filter TM.isSigner
                   (TM.ordered_metas (TM.instructions tx_256_signers) (key 0)))
                 = 256%nat) by (vm_compute; reflexivity).
  split; [exact Hlen|]. split; [reflexivity|].
  rewrite Hlen. simpl. discriminate.
Qed.

(** C4 (amended).  On every successful [compile] with signers
    [signer0 :: rest]: [accountKeys] starts with [signer0]'s key; the ordered
    account list starts with that key as a writable signer, followed by the
    sorted list without the first entry that carried the key (or the whole
    sorted list when none did); and [numRequiredSignatures] is the number of
    signer entries of that list modulo 256, hence that number whenever it is
    at most 255. *)
Theorem compile_fee_payer_first (m : TM.t) (signer0 : Keypair)
    (rest : list Keypair) (msg : CM.t) :
  TM.compile m (signer0 :: rest) = Ok msg ->
  let fee_payer := publicKey signer0 in
  let sorted :=
    std_sort TM.meta_less
      (TM.collect_programs (TM.instructions m)
         (TM.collect_accounts (TM.instructions m))) in
  let metas := TM.ordered_metas (TM.instructions m) fee_payer in
  let signer_count := length (filter TM.isSigner metas) in
  nth_error (CM.accountKeys msg) 0 = Some fee_payer
  /\ (In fee_payer (map TM.pubkey sorted) ->
      metas = TM.mkAccountMeta fee_payer true true
                :: erase sorted
                     (std_find (fun a => TM.meta_eqb_key a fee_payer) sorted))
  /\ (~ In fee_payer (map TM.pubkey sorted) ->
      metas = TM.mkAccountMeta fee_payer true true :: sorted)
  /\ numRequiredSignatures (CM.header msg) = Z.of_nat signer_count mod 256
  /\ ((signer_count <= 255)%nat ->
      numRequiredSignatures (CM.header msg) = Z.of_nat signer_count).
Proof.
  intros Hc fee_payer sorted metas signer_count.
  assert (Hne : TM.instructions m <> []).
  { intros E. unfold TM.compile in Hc. rewrite E in Hc. discriminate. }
  rewrite (compile_eq m signer0 rest Hne) in Hc.
  injection Hc as <-. simpl.
  fold fee_payer. fold metas.
  assert (Hreq : TM.n_required (TM.split_keys metas)
                 = Z.of_nat signer_count mod 256)
    by apply split_keys_required.
  repeat split.
  - unfold final_keys. fold metas. rewrite split_keys_signed.
    destruct (move_fee_payer_head sorted fee_payer) as [tl Htl].
    unfold metas, TM.ordered_metas. fold sorted. rewrite Htl. reflexivity.
  - intros Hin. now apply move_fee_payer_present.
  - intros Hin. now apply move_fee_payer_absent.
  - exact Hreq.
  - intros Hle. rewrite Hreq. apply Z.mod_small. lia.
Qed.

Lemma compile_fee_payer_first_witness :
  exists msg,
    TM.compile tx_simple [payer] = Ok msg
    /\ nth_error (CM.accountKeys msg) 0 = Some (key 1)
    /\ numRequiredSignatures (CM.header msg) = 2.
Proof.
  exists msg_simple.
  assert (Hc : TM.compile tx_simple [payer]
               = Ok msg_simple)
    by (vm_compute; reflexivity).
  split; [exact Hc|].
  destruct (compile_fee_payer_first tx_simple payer [] _ Hc)
    as (H0 & _ & _ & _ & _).
  split; [exact H0 | reflexivity].
Defined.

(** C5.  In every message [compile] returns, each account index and each
    program index is a position of [accountKeys]; every address an
    instruction names, as an account or as its program, is in [accountKeys],
    so [compile] never returns with an address absent from the final key
    list; and (the indices being bytes) each index leads back to its address
    whenever there are at most 256 keys.  The lookup of an account that is
    not in the key list raises "Unknown account". *)
Theorem compile_indices_resolve (m : TM.t) (signers : list Keypair) :
  (forall msg, TM.compile m signers = Ok msg ->
     let keys := CM.accountKeys msg in
     Forall2
       (fun (i : TM.Instruction) (c : CM.Instruction) =>
          0 <= CM.programIdIndex c < Z.of_nat (length keys)
          /\ Forall (fun x => 0 <= x < Z.of_nat (length keys)) (CM.accounts c)
          /\ In (TM.programId i) keys
          /\ Forall (fun a => In (TM.pubkey a) keys) (TM.accounts i)
          /\ ((length keys <= 256)%nat ->
              nth (Z.to_nat (CM.programIdIndex c)) keys PublicKey_default
                = TM.programId i
              /\ map (fun x => nth (Z.to_nat x) keys PublicKey_default)
                     (CM.accounts c)
                 = map TM.pubkey (TM.accounts i)))
       (TM.instructions m) (CM.instructions msg))
  /\ (forall keys instrs,
        Exists (fun i => Exists (fun a => ~ In (TM.pubkey a) keys)
                                (TM.accounts i)) instrs ->
        TM.compile_instructions keys instrs []
        = Throw (runtime_error "Unknown account")).
Proof.
  split; [|intros keys instrs; apply compile_instructions_unknown].
  intros msg Hc.
  destruct signers as [|signer0 rest].
  { unfold TM.compile in Hc. destruct (TM.instructions m); discriminate. }
  assert (Hne : TM.instructions m <> []).
  { intros E. unfold TM.compile in Hc. rewrite E in Hc. discriminate. }
  rewrite (compile_eq m signer0 rest Hne) in Hc.
  injection Hc as <-. simpl.
  set (keys := final_keys (TM.instructions m) (publicKey signer0)).
  assert (Hall : forall i, In i (TM.instructions m) ->
            In (TM.programId i) keys
            /\ Forall (fun a => In (TM.pubkey a) keys) (TM.accounts i)).
  { intros i Hi. split; [now apply final_keys_program|].
    apply Forall_forall. intros a Ha.
    now apply final_keys_account with (i := i). }
  clearbody keys. clear Hne. revert Hall.
  induction (TM.instructions m) as [|i instrs IH]; intros Hall; simpl;
    constructor.
  - destruct (Hall i (or_introl eq_refl)) as [Hp Ha]. simpl.
    split; [now apply key_index_valid|].
    split.
    { apply Forall_forall. intros x Hx. apply in_map_iff in Hx.
      destruct Hx as [a [<- Hin]]. apply key_index_valid.
      rewrite Forall_forall in Ha. now apply Ha. }
    split; [assumption|]. split; [assumption|].
    intros Hlen. split; [now apply key_index_resolves|].
    rewrite map_map. apply map_ext_in. intros a Hin.
    apply key_index_resolves; [assumption|].
    rewrite Forall_forall in Ha. now apply Ha.
  - apply IH. intros j Hj. apply Hall. now right.
Qed.

Lemma compile_indices_resolve_witness :
  Forall2
    (fun (i : TM.Instruction) (c : CM.Instruction) =>
       0 <= CM.programIdIndex c < 4
       /\ Forall (fun x => 0 <= x < 4) (CM.accounts c))
    (TM.instructions tx_simple) (CM.instructions msg_simple)
  /\ TM.compile_instructions [key 1; key 4] (TM.instructions tx_simple) []
     = Throw (runtime_error "Unknown account").
Proof.
  destruct (compile_indices_resolve tx_simple [payer]) as [H1 H2].
  split.
  - specialize (H1 msg_simple eq_refl).
    simpl in H1. inversion H1 as [|i c li lc Hic Hrest]; subst.
    constructor; [|constructor].
    destruct Hic as (Hp & Ha & _). split; assumption.
  - apply H2. constructor. simpl.
    apply Exists_cons_tl. apply Exists_cons_tl. constructor.
    simpl. intros [H|[H|[]]]; discriminate H.
Defined.

(** ** Claims about [serialize] *)

Section SerializeFacts.

Variable encode_length : nat -> list Z.

Lemma fold_push_back (xs buf : list Z) :
  fold_left CM.push_back xs buf = buf ++ xs.
Proof.
  revert buf; induction xs as [|x xs IH]; intros buf; simpl.
  - now rewrite app_nil_r.
  - rewrite IH. unfold CM.push_back. now rewrite <- app_assoc.
Qed.

Lemma fold_insert_keys (keys : list PublicKey) (buf : list Z) :
  fold_left (fun buf key => CM.insert_end buf (bytes key)) keys buf
  = buf ++ concat (map bytes keys).
Proof.
  revert buf; induction keys as [|k keys IH]; intros buf; simpl.
  - now rewrite app_nil_r.
  - rewrite IH. unfold CM.insert_end. now rewrite <- app_assoc.
Qed.

Lemma serialize_instruction_layout (buf : list Z) (i : CM.Instruction) :
  CM.serialize_instruction encode_length buf i
  = buf ++ CM.instruction_layout encode_length i.
Proof.
  unfold CM.serialize_instruction, CM.instruction_layout.
  rewrite fold_push_back. unfold CM.insert_end, CM.push_back.
  repeat rewrite <- app_assoc. reflexivity.
Qed.

Lemma fold_serialize_instruction (instrs : list CM.Instruction)
    (buf : list Z) :
  fold_left (CM.serialize_instruction encode_length) instrs buf
  = buf ++ concat (map (CM.instruction_layout encode_length) instrs).
Proof.
  revert buf; induction instrs as [|i instrs IH]; intros buf; simpl.
  - now rewrite app_nil_r.
  - rewrite IH, serialize_instruction_layout. now rewrite <- app_assoc.
Qed.

Lemma concat_keys_length (keys : list PublicKey) :
  Forall (fun k => length (bytes k) = PUBLIC_KEY_LENGTH) keys ->
  length (concat (map bytes keys)) = (PUBLIC_KEY_LENGTH * length keys)%nat.
Proof.
  unfold PUBLIC_KEY_LENGTH.
  induction 1 as [|k keys Hk _ IH]; simpl length; [lia|].
  rewrite length_app, Hk, IH. lia.
Qed.

(** C8.  When [serialize] succeeds on an empty buffer, the buffer holds
    exactly the wire layout: the three header bytes, the compact length of
    the key list, every key's bytes in order (32 each), the blockhash bytes,
    the compact length of the instruction list, and for each instruction its
    program index, the compact length of its account indices, the indices,
    the compact length of its payload and the payload. *)
Theorem serialize_layout (m : CM.t) (out : list Z) :
  CM.serialize encode_length m [] = Ok out ->
  out = CM.message_layout encode_length m
  /\ firstn 3 out = [numRequiredSignatures (CM.header m);
                     numReadonlySignedAccounts (CM.header m);
                     numReadonlyUnsignedAccounts (CM.header m)]
  /\ (Forall (fun k => length (bytes k) = PUBLIC_KEY_LENGTH)
             (CM.accountKeys m) ->
      length (concat (map bytes (CM.accountKeys m)))
      = (32 * length (CM.accountKeys m))%nat).
Proof.
  unfold CM.serialize. simpl.
  destruct (numRequiredSignatures (CM.header m) =? 0); [discriminate|].
  intros [= <-].
  rewrite fold_serialize_instruction, fold_insert_keys.
  unfold CM.message_layout, CM.insert_end, CM.push_back. simpl.
  repeat rewrite <- app_assoc. simpl.
  repeat split. apply concat_keys_length.
Qed.

(** C10.  A message whose header asks for no signature is never serialized:
    on an empty buffer [serialize] raises "Message must have at least one
    signature", on any other buffer it raises as well, and whatever it
    returns starts with a signature count that is not zero (at least 1, the
    count being unsigned). *)
Theorem serialize_requires_signature (m : CM.t) :
  (numRequiredSignatures (CM.header m) = 0 ->
   CM.serialize encode_length m []
   = Throw (runtime_error "Message must have at least one signature")
   /\ forall buf out, CM.serialize encode_length m buf <> Ok out)
  /\ (forall buf out,
        CM.serialize encode_length m buf = Ok out ->
        buf = []
        /\ nth_error out 0 = Some (numRequiredSignatures (CM.header m))
        /\ numRequiredSignatures (CM.header m) <> 0
        /\ (0 <= numRequiredSignatures (CM.header m) ->
            1 <= numRequiredSignatures (CM.header m))).
Proof.
  split.
  - intros H0. unfold CM.serialize. rewrite H0. simpl. split; [reflexivity|].
    intros buf out. destruct (0 <? length buf)%nat; discriminate.
  - intros buf out. unfold CM.serialize.
    destruct buf as [|b buf]; simpl; [|discriminate].
    destruct (Z.eqb_spec (numRequiredSignatures (CM.header m)) 0) as [E|E];
      [discriminate|].
    intros [= <-].
    rewrite fold_serialize_instruction, fold_insert_keys.
    unfold CM.insert_end, CM.push_back. simpl.
    repeat rewrite <- app_assoc. simpl.
    repeat split; [assumption | lia].
Qed.

End SerializeFacts.

Lemma serialize_layout_witness :
  exists out,
    CM.serialize encode_length msg_simple [] = Ok out
    /\ out = CM.message_layout encode_length msg_simple
    /\ firstn 3 out = [2; 1; 1].
Proof.
  destruct (CM.serialize encode_length msg_simple []) as [out|e] eqn:H;
    [|vm_compute in H; discriminate H].
  exists out. split; [reflexivity|].
  destruct (serialize_layout encode_length msg_simple out H) as (H1 & H2 & _).
  split; [exact H1 | exact H2].
Defined.

Lemma serialize_requires_signature_witness :
  CM.serialize encode_length msg_unsigned []
  = Throw (runtime_error "Message must have at least one signature")
  /\ 1 <= numRequiredSignatures (CM.header msg_simple).
Proof.
  destruct (serialize_requires_signature encode_length msg_unsigned)
    as [H0 _].
  destruct (serialize_requires_signature encode_length msg_simple)
    as [_ H1].
  split.
  - apply H0. reflexivity.
  - destruct (H1 [] (CM.message_layout encode_length msg_simple))
      as (_ & _ & _ & Hge).
    + vm_compute. reflexivity.
    + apply Hge. simpl. lia.
Defined.

(** ** Claims about program-derived addresses *)

Section ProgramAddressFacts.

Variable crypto_hash_sha256 : list Z -> list Z.
Variable ge25519_is_canonical : list Z -> Z.
Variable ge25519_frombytes : list Z -> Z.

Let on_curve := is_on_curve ge25519_is_canonical ge25519_frombytes.
Let create :=
  create_program_address crypto_hash_sha256 ge25519_is_canonical
                         ge25519_frombytes.
Let find_from :=
  find_program_address_from crypto_hash_sha256 ge25519_is_canonical
                            ge25519_frombytes.
Let find :=
  find_program_address crypto_hash_sha256 ge25519_is_canonical
                       ge25519_frombytes.

Lemma append_seeds_ok (seeds : list (list Z)) (buffer : list Z) :
  Forall (fun seed => (length seed <= MAX_SEED_LENGTH)%nat) seeds ->
  append_seeds seeds buffer = Ok (buffer ++ concat seeds).
Proof.
  intros H; revert buffer; induction H as [|seed seeds Hs _ IH];
    intros buffer; simpl.
  - now rewrite app_nil_r.
  - destruct (Nat.ltb_spec MAX_SEED_LENGTH (length seed)); [lia|].
    rewrite IH. now rewrite <- app_assoc.
Qed.

Lemma append_seeds_too_long (seeds : list (list Z)) (buffer : list Z) :
  Exists (fun seed => (MAX_SEED_LENGTH < length seed)%nat) seeds ->
  append_seeds seeds buffer = Throw (runtime_error "Max seed length exceeded").
Proof.
  intros H; revert buffer; induction H as [seed seeds Hs|seed seeds _ IH];
    intros buffer; simpl.
  - destruct (Nat.ltb_spec MAX_SEED_LENGTH (length seed)); [reflexivity|lia].
  - destruct (MAX_SEED_LENGTH <? length seed)%nat; [reflexivity | apply IH].
Qed.

Lemma seeds_dec (seeds : list (list Z)) :
  Forall (fun seed => (length seed <= MAX_SEED_LENGTH)%nat) seeds
  \/ Exists (fun seed => (MAX_SEED_LENGTH < length seed)%nat) seeds.
Proof.
  induction seeds as [|seed seeds [IH|IH]].
  - left. constructor.
  - destruct (le_lt_dec (length seed) MAX_SEED_LENGTH).
    + left. now constructor.
    + right. now constructor.
  - right. now apply Exists_cons_tl.
Qed.

(** C6.  [create_program_address] raises "Max seed length exceeded" when a
    seed is longer than 32 bytes.  Otherwise it hashes the seeds in order,
    then the program's bytes, then the ASCII bytes of
    "ProgramDerivedAddress"; it returns no address when the digest is on the
    curve and the digest otherwise.  The result is a function of the seeds
    and the program address alone. *)
Theorem create_program_address_spec (seeds : list (list Z))
    (program_id : PublicKey) :
  (Exists (fun seed => (32 < length seed)%nat) seeds ->
   create seeds program_id
   = Throw (runtime_error "Max seed length exceeded"))
  /\ (Forall (fun seed => (length seed <= 32)%nat) seeds ->
      let digest :=
        PublicKey_of_ptr
          (crypto_hash_sha256
             (concat seeds ++ bytes program_id ++ ProgramDerivedAddress)) in
      create seeds program_id
      = Ok (if on_curve digest then None else Some digest))
  /\ ProgramDerivedAddress
     = [80; 114; 111; 103; 114; 97; 109; 68; 101; 114; 105; 118; 101; 100;
        65; 100; 100; 114; 101; 115; 115]
  /\ (forall r1 r2,
        create seeds program_id = r1 -> create seeds program_id = r2 ->
        r1 = r2).
Proof.
  split; [|split; [|split]].
  - intros H. unfold create, create_program_address.
    now rewrite (append_seeds_too_long seeds [] H).
  - intros H digest. unfold create, create_program_address.
    rewrite (append_seeds_ok seeds [] H). simpl.
    unfold digest, on_curve. rewrite <- app_assoc.
    destruct (is_on_curve _ _ _); reflexivity.
  - reflexivity.
  - congruence.
Qed.

Lemma create_accepts_off_curve (seeds : list (list Z))
    (program_id a : PublicKey) :
  create seeds program_id = Ok (Some a) -> on_curve a = false.
Proof.
  unfold create, create_program_address.
  destruct (append_seeds seeds []) as [buffer|e]; simpl; [|discriminate].
  fold on_curve.
  destruct (on_curve _) eqn:E; intros [= <-]. exact E.
Qed.

(** Whether [create_program_address] raises does not depend on the value of
    a one-byte seed at the end. *)
Lemma create_throw_any_nonce (seeds : list (list Z)) (program_id : PublicKey)
    (x y : Z) (e : exn) :
  create (seeds ++ [[x]]) program_id = Throw e ->
  create (seeds ++ [[y]]) program_id = Throw e.
Proof.
  intros H.
  destruct (seeds_dec seeds) as [Hok|Hlong].
  - exfalso. revert H. unfold create, create_program_address.
    rewrite append_seeds_ok.
    + simpl. destruct (is_on_curve _ _ _); discriminate.
    + apply Forall_app. split; [assumption|].
      constructor; [|constructor]. simpl. unfold MAX_SEED_LENGTH. lia.
  - assert (Hx : forall z, Exists (fun seed =>
                   (MAX_SEED_LENGTH < length seed)%nat) (seeds ++ [[z]])).
    { intros z. apply Exists_app. now left. }
    revert H. unfold create, create_program_address.
    rewrite (append_seeds_too_long _ [] (Hx x)).
    rewrite (append_seeds_too_long _ [] (Hx y)). simpl. trivial.
Qed.

(** The loop, started at [k]: where it stops and why. *)
Lemma find_from_ok (k : nat) (seeds : list (list Z)) (programId a : PublicKey)
    (nonce : Z) :
  find_from k seeds programId = Ok (a, nonce) ->
  exists j : nat,
    nonce = Z.of_nat j /\ (1 <= j <= k)%nat
    /\ create (seeds ++ [[Z.of_nat j]]) programId = Ok (Some a)
    /\ forall i : nat, (j < i <= k)%nat ->
         create (seeds ++ [[Z.of_nat i]]) programId = Ok None.
Proof.
  unfold find_from. induction k as [|k IH]; [discriminate|].
  cbn [find_program_address_from]. fold create.
  destruct (create (seeds ++ [[Z.of_nat (S k)]]) programId)
    as [[b|]|e] eqn:Hc; cbn [bind]; [| |discriminate].
  - intros [= <- <-]. exists (S k).
    split; [reflexivity|]. split; [lia|]. split; [exact Hc|].
    intros i Hi. lia.
  - intros H. destruct (IH H) as (j & Hn & Hj & Hcj & Hrej).
    exists j. split; [assumption|]. split; [lia|]. split; [assumption|].
    intros i Hi. destruct (Nat.eq_dec i (S k)) as [->|Hne]; [exact Hc|].
    apply Hrej. lia.
Qed.

Lemma find_from_throw (k : nat) (seeds : list (list Z)) (programId : PublicKey)
    (e : exn) :
  find_from k seeds programId = Throw e ->
  (e = runtime_error "Unable to find a viable program address nonce"
   /\ forall i : nat, (1 <= i <= k)%nat ->
        create (seeds ++ [[Z.of_nat i]]) programId = Ok None)
  \/ (e = runtime_error "Max seed length exceeded"
      /\ forall z, create (seeds ++ [[z]]) programId = Throw e).
Proof.
  unfold find_from. induction k as [|k IH].
  - intros [= <-]. left. split; [reflexivity|]. intros i Hi. lia.
  - cbn [find_program_address_from]. fold create.
    destruct (create (seeds ++ [[Z.of_nat (S k)]]) programId)
      as [[b|]|e'] eqn:Hc; cbn [bind]; [discriminate| |].
    + intros H. destruct (IH H) as [[He Hall]|Hthrow]; [left|now right].
      split; [assumption|]. intros i Hi.
      destruct (Nat.eq_dec i (S k)) as [->|Hne]; [exact Hc|].
      apply Hall. lia.
    + intros [= <-]. right. split.
      * destruct (seeds_dec (seeds ++ [[Z.of_nat (S k)]])) as [Hok|Hlong].
        -- exfalso. revert Hc. unfold create, create_program_address.
           rewrite append_seeds_ok by assumption. simpl.
           destruct (is_on_curve _ _ _); discriminate.
        -- revert Hc. unfold create, create_program_address.
           rewrite (append_seeds_too_long _ [] Hlong). simpl. congruence.
      * intros z. now apply create_throw_any_nonce with (x := Z.of_nat (S k)).
Qed.

Lemma find_from_none (k : nat) (seeds : list (list Z)) (programId : PublicKey) :
  (forall i : nat, (1 <= i <= k)%nat ->
     create (seeds ++ [[Z.of_nat i]]) programId = Ok None) ->
  find_from k seeds programId
  = Throw (runtime_error "Unable to find a viable program address nonce").
Proof.
  unfold find_from. induction k as [|k IH]; intros H; [reflexivity|].
  cbn [find_program_address_from]. fold create.
  rewrite (H (S k)) by lia. cbn [bind]. apply IH. intros i Hi. apply H. lia.
Qed.

(** C7.  When [find_program_address] returns [(a, nonce)], the nonce is a
    byte in [1, 255], [a] is what [create_program_address] accepts for the
    seeds followed by the one-byte seed [nonce], every larger nonce up to 255
    was rejected, and [a] is off the curve.  It raises "Unable to find a
    viable program address nonce" exactly when every nonce in [1, 255] is
    rejected, and whenever it raises no nonce yields an address.  The result
    is a function of the inputs. *)
Theorem find_program_address_spec (seeds : list (list Z))
    (programId : PublicKey) :
  (forall a nonce,
     find seeds programId = Ok (a, nonce) ->
     exists j : nat,
       nonce = Z.of_nat j /\ (1 <= j <= 255)%nat
       /\ create (seeds ++ [[nonce]]) programId = Ok (Some a)
       /\ on_curve a = false
       /\ forall i : nat, (j < i <= 255)%nat ->
            create (seeds ++ [[Z.of_nat i]]) programId = Ok None)
  /\ (find seeds programId
      = Throw (runtime_error "Unable to find a viable program address nonce")
      <-> forall i : nat, (1 <= i <= 255)%nat ->
            create (seeds ++ [[Z.of_nat i]]) programId = Ok None)
  /\ (forall e, find seeds programId = Throw e ->
        forall (i : nat) a, (1 <= i <= 255)%nat ->
          create (seeds ++ [[Z.of_nat i]]) programId <> Ok (Some a))
  /\ (forall r1 r2,
        find seeds programId = r1 -> find seeds programId = r2 -> r1 = r2).
Proof.
  unfold find, find_program_address. fold find_from.
  split; [|split; [split|split]].
  - intros a nonce H.
    destruct (find_from_ok 255 seeds programId a nonce H)
      as (j & -> & Hj & Hc & Hrej).
    exists j. split; [reflexivity|]. split; [assumption|].
    split; [assumption|]. split; [|assumption].
    now apply create_accepts_off_curve with (seeds := seeds ++ [[Z.of_nat j]])
                                         (program_id := programId).
  - intros H. destruct (find_from_throw 255 seeds programId _ H)
      as [[_ Hall]|[He _]]; [assumption | discriminate].
  - apply find_from_none.
  - intros e H i a Hi Hc.
    destruct (find_from_throw 255 seeds programId e H)
      as [[_ Hall]|[_ Hthrow]].
    + rewrite (Hall i Hi) in Hc. discriminate.
    + rewrite Hthrow in Hc. discriminate.
  - congruence.
Qed.

End ProgramAddressFacts.

Lemma create_program_address_spec_witness :
  create_program_address sample_sha256 sample_is_canonical sample_frombytes
    [repeat 0 33] (key 5)
  = Throw (runtime_error "Max seed length exceeded")
  /\ create_program_address sample_sha256 sample_is_canonical sample_frombytes
       [[1; 2; 3]] (key 5)
     = Ok (Some (mkPublicKey (repeat 108 32))).
Proof.
  split.
  - destruct (create_program_address_spec sample_sha256 sample_is_canonical
                sample_frombytes [repeat 0 33] (key 5)) as [H _].
    apply H. constructor. simpl. lia.
  - destruct (create_program_address_spec sample_sha256 sample_is_canonical
                sample_frombytes [[1; 2; 3]] (key 5)) as (_ & H & _).
    rewrite H.
    + vm_compute. reflexivity.
    + constructor; [simpl; lia | constructor].
Defined.

Lemma find_program_address_spec_witness :
  find_program_address sample_sha256 sample_is_canonical sample_frombytes
    [[1; 2; 3]] (key 5)
  = Ok (mkPublicKey (repeat 106 32), 254)
  /\ is_on_curve sample_is_canonical sample_frombytes
       (mkPublicKey (repeat 106 32)) = false.
Proof.
  assert (H : find_program_address sample_sha256 sample_is_canonical
                sample_frombytes [[1; 2; 3]] (key 5)
              = Ok (mkPublicKey (repeat 106 32), 254))
    by (vm_compute; reflexivity).
  split; [exact H|].
  destruct (find_program_address_spec sample_sha256 sample_is_canonical
              sample_frombytes [[1; 2; 3]] (key 5)) as (H1 & _).
  destruct (H1 _ _ H) as (j & _ & _ & _ & Hoff & _).
  exact Hoff.
Defined.

(** ** Claims about the result envelope *)

Section ResultFacts.

Variables T Context : Type.
Variable get_T : Json.json -> result T.
Variable get_Context : Json.json -> result Context.

Let decode := decode_response T Context get_T get_Context.

Lemma contains_at_key (j : Json.json) (key : string) :
  Json.contains j key = true -> exists v, Json.at_key j key = Ok v.
Proof.
  destruct j as [| | | | |members]; simpl; try discriminate.
  induction members as [|kv members IH]; simpl; [discriminate|].
  destruct (String.eqb (fst kv) key); simpl; [eauto | exact IH].
Qed.

(** Decoding a response that has a "result" member never touches the error
    slot. *)
Lemma decode_result_branch (j : Json.json) (r : Result T Context) :
  Json.contains j "result" = true ->
  decode j = Ok r -> _error r = None.
Proof.
  intros Hc. unfold decode, decode_response, Result_from_json. rewrite Hc.
  destruct (Json.at_key j "result") as [jr|e]; simpl; [|discriminate].
  destruct (Json.contains jr "context"); simpl.
  - destruct (Json.at_key jr "context") as [jc|e]; simpl; [|discriminate].
    destruct (get_Context jc) as [c|e]; simpl; [|discriminate].
    destruct (Json.contains jr "value"); simpl.
    + destruct (Json.at_key jr "value") as [jv|e]; simpl; [|discriminate].
      destruct (Json.is_null jv); simpl; [now intros [= <-]|].
      destruct (get_T jv); simpl; [now intros [= <-] | discriminate].
    + destruct (Json.is_null jr); simpl; [now intros [= <-]|].
      destruct (get_T jr); simpl; [now intros [= <-] | discriminate].
  - destruct (Json.contains jr "value"); simpl.
    + destruct (Json.at_key jr "value") as [jv|e]; simpl; [|discriminate].
      destruct (Json.is_null jv); simpl; [now intros [= <-]|].
      destruct (get_T jv); simpl; [now intros [= <-] | discriminate].
    + destruct (Json.is_null jr); simpl; [now intros [= <-]|].
      destruct (get_T jr); simpl; [now intros [= <-] | discriminate].
Qed.

(** Without a "result" member only the error slot can be filled. *)
Lemma decode_error_branch (j : Json.json) (r : Result T Context) :
  Json.contains j "result" = false ->
  decode j = Ok r ->
  _result r = None /\ _context r = None
  /\ (Json.contains j "error" = true ->
      exists je e,
        Json.at_key j "error" = Ok je
        /\ ResultError_from_json je = Ok e
        /\ _error r = Some e).
Proof.
  intros Hc. unfold decode, decode_response, Result_from_json. rewrite Hc.
  destruct (Json.contains j "error") eqn:He.
  - destruct (Json.at_key j "error") as [je|e]; simpl; [|discriminate].
    destruct (ResultError_from_json je) as [e|e] eqn:Hd; simpl;
      [|discriminate].
    intros [= <-]. simpl. repeat split. intros _. now exists je, e.
  - intros [= <-]. simpl. repeat split. discriminate.
Qed.

(** With a "result" member the value slot holds what the payload decodes
    to, the payload being the member's "value" when it has one and the
    member itself otherwise, and stays empty for a null payload; the context
    slot holds the member's "context" when it has one. *)
Lemma decode_result_payload (j : Json.json) (r : Result T Context) :
  Json.contains j "result" = true ->
  decode j = Ok r ->
  exists jr jv,
    Json.at_key j "result" = Ok jr
    /\ (if Json.contains jr "value" then Json.at_key jr "value" else Ok jr)
       = Ok jv
    /\ (if Json.is_null jv then _result r = None
        else exists v, get_T jv = Ok v /\ _result r = Some v)
    /\ (if Json.contains jr "context"
        then exists jc c,
               Json.at_key jr "context" = Ok jc
               /\ get_Context jc = Ok c /\ _context r = Some c
        else _context r = None).
Proof.
  intros Hc. unfold decode, decode_response, Result_from_json. rewrite Hc.
  destruct (Json.at_key j "result") as [jr|e]; simpl; [|discriminate].
  destruct (Json.contains jr "context") eqn:Hctx; simpl.
  - destruct (Json.at_key jr "context") as [jc|e] eqn:Hjc; simpl;
      [|discriminate].
    destruct (get_Context jc) as [c|e] eqn:Hgc; simpl; [|discriminate].
    destruct (Json.contains jr "value") eqn:Hv; simpl.
    + destruct (Json.at_key jr "value") as [jv|e] eqn:Hjv; simpl;
        [|discriminate].
      destruct (Json.is_null jv) eqn:Hn; simpl.
      * intros [= <-]. exists jr, jv. rewrite Hv, Hn, Hctx. simpl.
        split; [reflexivity|]. split; [assumption|]. split; [reflexivity|].
        now exists jc, c.
      * destruct (get_T jv) as [v|e] eqn:Hgv; simpl; [|discriminate].
        intros [= <-]. exists jr, jv. rewrite Hv, Hn, Hctx. simpl.
        split; [reflexivity|]. split; [assumption|].
        split; [now exists v | now exists jc, c].
    + destruct (Json.is_null jr) eqn:Hn; simpl.
      * intros [= <-]. exists jr, jr. rewrite Hv, Hn, Hctx. simpl.
        split; [reflexivity|]. split; [reflexivity|]. split; [reflexivity|].
        now exists jc, c.
      * destruct (get_T jr) as [v|e] eqn:Hgv; simpl; [|discriminate].
        intros [= <-]. exists jr, jr. rewrite Hv, Hn, Hctx. simpl.
        split; [reflexivity|]. split; [reflexivity|].
        split; [now exists v | now exists jc, c].
  - destruct (Json.contains jr "value") eqn:Hv; simpl.
    + destruct (Json.at_key jr "value") as [jv|e] eqn:Hjv; simpl;
        [|discriminate].
      destruct (Json.is_null jv) eqn:Hn; simpl.
      * intros [= <-]. exists jr, jv. rewrite Hv, Hn, Hctx. simpl.
        split; [reflexivity|]. split; [assumption|]. now split.
      * destruct (get_T jv) as [v|e] eqn:Hgv; simpl; [|discriminate].
        intros [= <-]. exists jr, jv. rewrite Hv, Hn, Hctx. simpl.
        split; [reflexivity|]. split; [assumption|].
        split; [now exists v | reflexivity].
    + destruct (Json.is_null jr) eqn:Hn; simpl.
      * intros [= <-]. exists jr, jr. rewrite Hv, Hn, Hctx. simpl.
        split; [reflexivity|]. split; [reflexivity|]. now split.
      * destruct (get_T jr) as [v|e] eqn:Hgv; simpl; [|discriminate].
        intros [= <-]. exists jr, jr. rewrite Hv, Hn, Hctx. simpl.
        split; [reflexivity|]. split; [reflexivity|].
        split; [now exists v | reflexivity].
Qed.

(** What [get<int64_t>] returns fits [int64_t]. *)
Lemma get_int64_range (j : Json.json) (c : Z) :
  Json.get_int64 j = Ok c ->
  - 9223372036854775808 <= c < 9223372036854775808.
Proof.
  destruct j as [|b|n| | |]; simpl; try discriminate.
  - intros [= <-]. destruct b; lia.
  - intros [= <-]. unfold int64.
    pose proof (Z.mod_pos_bound (n + 9223372036854775808)
                  18446744073709551616 eq_refl) as Hm.
    lia.
Qed.

(** C2 (amended).  A decoded response never has both the value and the
    error slot filled.  When the response has a "result" member the error
    slot stays empty, whatever else the response holds, and the member is
    decoded: the value slot holds what its payload decodes to (the payload
    is its "value" member when it has one, the member itself otherwise) and
    is empty for a null payload, and the context slot holds its "context"
    when it has one.  When the response has no "result" member and has an
    "error" member, the error slot holds the code, as an [int64_t], and the
    message read from that member, and the value and context slots are
    empty.  With neither member nothing is filled in. *)
Theorem decode_response_slots (j : Json.json) (r : Result T Context) :
  decode j = Ok r ->
  (_result r = None \/ _error r = None)
  /\ (Json.contains j "result" = true -> _error r = None)
  /\ (Json.contains j "result" = false ->
      Json.contains j "error" = true ->
      _result r = None /\ _context r = None
      /\ exists je jc jm c m,
           Json.at_key j "error" = Ok je
           /\ Json.at_key je "code" = Ok jc /\ Json.get_int64 jc = Ok c
           /\ Json.at_key je "message" = Ok jm /\ Json.get_string jm = Ok m
           /\ _error r = Some (mkResultError c m)
           /\ - 9223372036854775808 <= c < 9223372036854775808)
  /\ (Json.contains j "result" = true ->
      exists jr jv,
        Json.at_key j "result" = Ok jr
        /\ (if Json.contains jr "value" then Json.at_key jr "value"
            else Ok jr) = Ok jv
        /\ (if Json.is_null jv then _result r = None
            else exists v, get_T jv = Ok v /\ _result r = Some v)
        /\ (if Json.contains jr "context"
            then exists jc c,
                   Json.at_key jr "context" = Ok jc
                   /\ get_Context jc = Ok c /\ _context r = Some c
            else _context r = None))
  /\ (Json.contains j "result" = false ->
      Json.contains j "error" = false ->
      r = Result_default T Context).
Proof.
  intros Hd. split; [|split; [|split; [|split]]].
  4: { intros Hc. now apply decode_result_payload. }
  4: { intros Hc He. revert Hd.
       unfold decode, decode_response, Result_from_json.
       rewrite Hc, He. now intros [= <-]. }
  - destruct (Json.contains j "result") eqn:Hc.
    + right. now apply decode_result_branch with (j := j).
    + left. now apply (decode_error_branch j r Hc Hd).
  - intros Hc. now apply decode_result_branch with (j := j).
  - intros Hc He.
    destruct (decode_error_branch j r Hc Hd) as (Hr & Hx & Herr).
    split; [assumption|]. split; [assumption|].
    destruct (Herr He) as (je & e & Hje & Hde & Hre).
    unfold ResultError_from_json in Hde.
    destruct (Json.at_key je "code") as [jc|] eqn:Hjc; simpl in Hde;
      [|discriminate].
    destruct (Json.get_int64 jc) as [c|] eqn:Hc'; simpl in Hde;
      [|discriminate].
    destruct (Json.at_key je "message") as [jm|] eqn:Hjm; simpl in Hde;
      [|discriminate].
    destruct (Json.get_string jm) as [m|] eqn:Hm; simpl in Hde;
      [|discriminate].
    injection Hde as <-.
    pose proof (get_int64_range jc c Hc') as Hrange.
    exists je, jc, jm, c, m. repeat split; try assumption; lia.
Qed.

End ResultFacts.

(** C2 as stated fails when the response carries an error object next to a
    "result" member: with a null result nothing at all is filled in, with a
    value the value is, and the error slot stays empty both times. *)
Lemma decode_ignores_error_next_to_result :
  Json.contains response_null_result_and_error "error" = true
  /\ decode_response Z Z Json.get_int64 Json.get_int64
       response_null_result_and_error
     = Ok (mkResult Z Z None None None)
  /\ Json.contains response_value_and_error "error" = true
  /\ decode_response Z Z Json.get_int64 Json.get_int64
       response_value_and_error
     = Ok (mkResult Z Z None (Some 7) None).
Proof. repeat split. Qed.

Lemma decode_response_slots_witness :
  decode_response Z Z Json.get_int64 Json.get_int64 response_error
  = Ok (mkResult Z Z None None
          (Some (mkResultError (-32002) "Transaction failed")))
  /\ (_result (mkResult Z Z None None
                 (Some (mkResultError (-32002) "Transaction failed"))) = None
      \/ _error (mkResult Z Z None None
                   (Some (mkResultError (-32002) "Transaction failed")))
         = None)
  /\ decode_response Z Z Json.get_int64 Json.get_int64
       response_value_and_error
     = Ok (mkResult Z Z None (Some 7) None)
  /\ exists jv v,
       Json.at_key response_value_and_error "result" = Ok jv
       /\ Json.get_int64 jv = Ok v
       /\ _result (mkResult Z Z None (Some 7) None) = Some v.
Proof.
  assert (H : decode_response Z Z Json.get_int64 Json.get_int64 response_error
              = Ok (mkResult Z Z None None
                      (Some (mkResultError (-32002) "Transaction failed"))))
    by reflexivity.
  assert (H' : decode_response Z Z Json.get_int64 Json.get_int64
                 response_value_and_error
               = Ok (mkResult Z Z None (Some 7) None))
    by reflexivity.
  split; [exact H|]. split.
  - exact (proj1 (decode_response_slots Z Z Json.get_int64 Json.get_int64
                    response_error _ H)).
  - split; [exact H'|].
    destruct (proj1 (proj2 (proj2 (proj2
                (decode_response_slots Z Z Json.get_int64 Json.get_int64
                   response_value_and_error _ H')))) eq_refl)
      as (jr & jv & Hjr & Hjv & Hres & _).
    injection Hjr as <-. injection Hjv as <-.
    destruct Hres as (v & Hv & Hr).
    exists (Json.number 7), v. split; [reflexivity|]. now split.
Defined.

(** ** Claim about the secret-key constructor *)

(** C3.  The claim: the constructor stores the 64-byte secret, derives the
    public key from it and raises when that key differs from the embedded
    address.  The constructor takes a [PUBLIC_KEY_LENGTH]-element array and
    never assigns the [secretKey] member: with validation skipped the
    keypair holds whatever the storage held and the all-zero public key;
    with validation it raises only if the library call reports failure, and
    nothing is compared. *)
Theorem Keypair_of_secret_drops_secret (sodium_init : Z)
    (crypto_sign_ed25519_sk_to_pk : list Z -> Z * list Z)
    (indeterminate secret : list Z) :
  Keypair_of_secret sodium_init crypto_sign_ed25519_sk_to_pk indeterminate
    secret true
  = (if sodium_init =? -1
     then Throw (runtime_error "Failed to initialize libsodium")
     else Ok (mkKeypair indeterminate PublicKey_default))
  /\ Keypair_of_secret sodium_init crypto_sign_ed25519_sk_to_pk indeterminate
       secret false
     = (if sodium_init =? -1
        then Throw (runtime_error "Failed to initialize libsodium")
        else if fst (crypto_sign_ed25519_sk_to_pk secret) =? 0
        then Ok (mkKeypair indeterminate
                   (mkPublicKey (snd (crypto_sign_ed25519_sk_to_pk secret))))
        else Throw (runtime_error "invalid secret key")).
Proof.
  unfold Keypair_of_secret.
  destruct (sodium_init =? -1); [split; reflexivity|].
  split; [reflexivity|]. simpl.
  destruct (crypto_sign_ed25519_sk_to_pk secret) as [rc pk]. simpl.
  destruct (rc =? 0); reflexivity.
Qed.

(** ** Positional notation *)

Section RadixFacts.

Variable base : Z.
Hypothesis base_gt_1 : 1 < base.

Lemma from_digits_snoc (ds : list Z) (d : Z) :
  from_digits base (ds ++ [d]) = from_digits base ds * base + d.
Proof. unfold from_digits. now rewrite fold_left_app. Qed.

Lemma from_digits_app (xs ys : list Z) :
  from_digits base (xs ++ ys)
  = from_digits base xs * base ^ Z.of_nat (length ys) + from_digits base ys.
Proof.
  induction ys as [|y ys IH] using rev_ind.
  - rewrite app_nil_r. simpl. unfold from_digits at 3. simpl. lia.
  - rewrite app_assoc, !from_digits_snoc, IH, length_app. simpl length.
    rewrite Nat2Z.inj_add, Z.pow_add_r by lia. simpl Z.of_nat.
    rewrite Z.pow_1_r. ring.
Qed.

Lemma from_digits_cons (x : Z) (ds : list Z) :
  from_digits base (x :: ds)
  = x * base ^ Z.of_nat (length ds) + from_digits base ds.
Proof.
  change (x :: ds) with ([x] ++ ds). rewrite from_digits_app.
  unfold from_digits at 1. simpl. reflexivity.
Qed.

Lemma from_digits_bound (ds : list Z) :
  Forall (digit base) ds -> 0 <= from_digits base ds < base ^ Z.of_nat (length ds).
Proof.
  induction ds as [|d ds IH] using rev_ind; intros H.
  - unfold from_digits. simpl. lia.
  - apply Forall_app in H. destruct H as [Hds Hd].
    inversion Hd as [|? ? Hd' _]; subst. unfold digit in Hd'.
    specialize (IH Hds).
    rewrite from_digits_snoc, length_app, Nat2Z.inj_add, Z.pow_add_r by lia.
    simpl Z.of_nat. rewrite Z.pow_1_r. nia.
Qed.

Lemma from_digits_zeros (k : nat) (ds : list Z) :
  from_digits base (repeat 0 k ++ ds) = from_digits base ds.
Proof.
  induction k as [|k IH]; [reflexivity|].
  simpl. rewrite from_digits_cons, IH. lia.
Qed.

(** Writing a number with a fixed number of digits gives back the digits it
    was read from. *)
Lemma to_digits_fixed_from_digits (ds acc : list Z) :
  Forall (digit base) ds ->
  to_digits_fixed base (length ds) (from_digits base ds) acc = ds ++ acc.
Proof.
  revert acc; induction ds as [|d ds IH] using rev_ind; intros acc H.
  - reflexivity.
  - apply Forall_app in H. destruct H as [Hds Hd].
    inversion Hd as [|? ? Hd' _]; subst. unfold digit in Hd'.
    rewrite length_app, Nat.add_comm. simpl.
    rewrite from_digits_snoc.
    replace ((from_digits base ds * base + d) / base)
      with (from_digits base ds)
      by (apply Z.div_unique with (r := d); lia).
    replace ((from_digits base ds * base + d) mod base) with d
      by (apply Z.mod_unique with (q := from_digits base ds); lia).
    rewrite IH by assumption. now rewrite <- app_assoc.
Qed.

Lemma to_digits_value (fuel : nat) (n : Z) (acc : list Z) :
  0 <= n < base ^ Z.of_nat fuel ->
  from_digits base (to_digits base fuel n acc)
  = n * base ^ Z.of_nat (length acc) + from_digits base acc.
Proof.
  revert n acc; induction fuel as [|fuel IH]; intros n acc Hn.
  - simpl in *. assert (n = 0) by lia. subst n. lia.
  - cbn [to_digits]. destruct (Z.eqb_spec n 0) as [->|Hne]; [lia|].
    rewrite IH.
    + rewrite from_digits_cons. cbn [length].
      rewrite Nat2Z.inj_succ, Z.pow_succ_r by lia.
      pose proof (Z.div_mod n base ltac:(lia)) as Hdm.
      set (q := n / base) in *. set (r := n mod base) in *.
      clearbody q r. subst n. ring.
    + rewrite Nat2Z.inj_succ, Z.pow_succ_r in Hn by lia.
      split; [apply Z.div_pos; lia|].
      apply Z.div_lt_upper_bound; lia.
Qed.

Lemma to_digits_digits (fuel : nat) (n : Z) (acc : list Z) :
  Forall (digit base) acc -> Forall (digit base) (to_digits base fuel n acc).
Proof.
  revert n acc; induction fuel as [|fuel IH]; intros n acc Hacc;
    cbn [to_digits]; [assumption|].
  destruct (n =? 0); [assumption|].
  apply IH. constructor; [|assumption].
  unfold digit. apply Z.mod_pos_bound. lia.
Qed.

(** The digit string is as short as the number allows. *)
Lemma to_digits_short (fuel : nat) (n : Z) (acc : list Z) :
  0 < n ->
  base ^ Z.of_nat (length (to_digits base fuel n acc) - length acc - 1) <= n.
Proof.
  revert n acc; induction fuel as [|fuel IH]; intros n acc Hn.
  - cbn [to_digits]. rewrite Nat.sub_diag.
    change (Z.of_nat (0 - 1)) with 0. rewrite Z.pow_0_r. lia.
  - cbn [to_digits]. destruct (Z.eqb_spec n 0) as [->|Hne]; [lia|].
    destruct (Z.eq_dec (n / base) 0) as [Hq|Hq].
    + rewrite Hq.
      assert (E : to_digits base fuel 0 (n mod base :: acc)
                  = n mod base :: acc) by (destruct fuel; reflexivity).
      rewrite E. cbn [length].
      replace (S (length acc) - length acc - 1)%nat with 0%nat by lia.
      change (Z.of_nat 0) with 0. rewrite Z.pow_0_r. lia.
    + assert (Hpos : 0 < n / base).
      { pose proof (Z.div_pos n base ltac:(lia) ltac:(lia)). lia. }
      specialize (IH (n / base) (n mod base :: acc) Hpos).
      cbn [length] in IH.
      set (len := length (to_digits base fuel (n / base)
                            (n mod base :: acc))) in *.
      destruct (le_lt_dec len (S (length acc))) as [Hle|Hgt].
      * replace (len - length acc - 1)%nat with 0%nat by lia.
        change (Z.of_nat 0) with 0. rewrite Z.pow_0_r. lia.
      * replace (len - length acc - 1)%nat
          with (S (len - S (length acc) - 1)) by lia.
        rewrite Nat2Z.inj_succ, Z.pow_succ_r by lia.
        pose proof (Z.mul_div_le n base ltac:(lia)). nia.
Qed.

End RadixFacts.

(** ** The base-58 codec *)

Lemma alphabet_length : length base58.alphabet = 58%nat.
Proof. reflexivity. Qed.

Lemma char_digit_digit_char (d : Z) :
  0 <= d < 58 -> base58.char_digit (base58.digit_char d) = Some d.
Proof.
  intros Hd.
  assert (Hall : forallb
            (fun i => match base58.char_digit
                              (base58.digit_char (Z.of_nat i)) with
                      | Some x => x =? Z.of_nat i
                      | None => false
                      end) (seq 0 58) = true) by (vm_compute; reflexivity).
  rewrite forallb_forall in Hall.
  specialize (Hall (Z.to_nat d)). rewrite Z2Nat.id in Hall by lia.
  destruct (base58.char_digit (base58.digit_char d)) as [x|].
  - f_equal. apply Z.eqb_eq. apply Hall. apply in_seq. lia.
  - discriminate Hall. apply in_seq. lia.
Qed.

Lemma digit_char_not_NUL (d : Z) :
  0 <= d < 58 -> Ascii.eqb (base58.digit_char d) base58.NUL = false.
Proof.
  intros Hd.
  assert (Hall : forallb
            (fun i => negb (Ascii.eqb (base58.digit_char (Z.of_nat i))
                                      base58.NUL)) (seq 0 58) = true)
    by (vm_compute; reflexivity).
  rewrite forallb_forall in Hall.
  specialize (Hall (Z.to_nat d)). rewrite Z2Nat.id in Hall by lia.
  apply negb_true_iff. apply Hall. apply in_seq. lia.
Qed.

Lemma c_str_digits (ds : list Z) :
  Forall (digit 58) ds ->
  c_str (map base58.digit_char ds) = map base58.digit_char ds.
Proof.
  induction 1 as [|d ds Hd _ IH]; simpl; [reflexivity|].
  rewrite digit_char_not_NUL by exact Hd. now rewrite IH.
Qed.

Lemma accumulate_digits (limit : Z) (ds : list Z) (n : Z) :
  Forall (digit 58) ds -> 0 <= n ->
  n * 58 ^ Z.of_nat (length ds) + from_digits 58 ds < limit ->
  base58.accumulate limit (map base58.digit_char ds) n
  = Some (n * 58 ^ Z.of_nat (length ds) + from_digits 58 ds).
Proof.
  intros H; revert n; induction H as [|d ds Hd Hds IH]; intros n Hn Hlt.
  - simpl. unfold from_digits. simpl. f_equal. lia.
  - cbn [map base58.accumulate]. rewrite char_digit_digit_char by exact Hd.
    cbn [length] in *. rewrite from_digits_cons in * by lia.
    rewrite Nat2Z.inj_succ, Z.pow_succ_r in * by lia.
    pose proof (from_digits_bound 58 ltac:(lia) ds Hds) as Hb.
    unfold digit in Hd.
    assert (Hp : 1 <= 58 ^ Z.of_nat (length ds))
      by (pose proof (Z.pow_pos_nonneg 58 (Z.of_nat (length ds))
                        ltac:(lia) ltac:(lia)); lia).
    destruct (Z.ltb_spec (n * 58 + d) limit) as [Hok|Hbad]; [|nia].
    rewrite IH by nia. f_equal. ring.
Qed.

Lemma count_leading_zeros_split (data : list Z) :
  data = repeat 0 (base58.count_leading_zeros data)
           ++ skipn (base58.count_leading_zeros data) data.
Proof.
  induction data as [|b data IH]; [reflexivity|].
  cbn [base58.count_leading_zeros].
  destruct b as [|p|p]; [|reflexivity|reflexivity].
  cbn [repeat skipn app]. now rewrite <- IH.
Qed.

Lemma count_leading_zeros_le (data : list Z) :
  (base58.count_leading_zeros data <= length data)%nat.
Proof.
  induction data as [|b data IH]; simpl; [lia|].
  destruct b; simpl; lia.
Qed.

Lemma text_digits_digits (data : list Z) : Forall (digit 58) (text_digits data).
Proof.
  unfold text_digits. apply Forall_app. split.
  - apply Forall_forall. intros x Hx. apply repeat_spec in Hx. subst x.
    unfold digit. lia.
  - apply to_digits_digits; [lia | constructor].
Qed.

(** The work buffer of the encoder is long enough for every input of at
    most 32 bytes, and 44 characters are enough for the text of 32 bytes. *)
Lemma radix_sizes (k : nat) :
  (k <= 32)%nat ->
  256 ^ Z.of_nat k <= 58 ^ Z.of_nat (k * 138 / 100 + 1)
  /\ 256 ^ Z.of_nat k <= 58 ^ Z.of_nat (12 + k).
Proof.
  intros Hk.
  assert (Hall : forallb
            (fun k => (256 ^ Z.of_nat k <=? 58 ^ Z.of_nat (k * 138 / 100 + 1))
                      && (256 ^ Z.of_nat k <=? 58 ^ Z.of_nat (12 + k)))
            (seq 0 33) = true) by (vm_compute; reflexivity).
  rewrite forallb_forall in Hall. specialize (Hall k).
  rewrite andb_true_iff, !Z.leb_le in Hall. apply Hall. apply in_seq. lia.
Qed.

Lemma skipn_bytes_bound (data : list Z) (z : nat) :
  Forall (digit 256) data ->
  0 <= from_digits 256 (skipn z data) < 256 ^ Z.of_nat (length data - z).
Proof.
  intros H. rewrite <- length_skipn.
  apply from_digits_bound; [lia|].
  apply Forall_forall. intros x Hx.
  rewrite Forall_forall in H. apply H.
  rewrite <- (firstn_skipn z data). apply in_app_iff. now right.
Qed.

Lemma text_digits_value (data : list Z) :
  length data = 32%nat -> Forall (digit 256) data ->
  from_digits 58 (text_digits data) = from_digits 256 data.
Proof.
  intros Hlen Hdata. unfold text_digits.
  set (z := base58.count_leading_zeros data).
  rewrite from_digits_zeros by lia.
  rewrite to_digits_value by
    (try lia;
     pose proof (skipn_bytes_bound data z Hdata);
     pose proof (proj1 (radix_sizes (length data - z) ltac:(lia))); lia).
  cbn [length]. change (Z.of_nat 0) with 0. rewrite Z.pow_0_r.
  unfold from_digits at 2. cbn [fold_left].
  rewrite (count_leading_zeros_split data) at 2. fold z.
  rewrite from_digits_zeros by lia. lia.
Qed.

Lemma text_digits_length (data : list Z) :
  length data = 32%nat -> Forall (digit 256) data ->
  (length (text_digits data) <= 44)%nat.
Proof.
  intros Hlen Hdata. unfold text_digits.
  set (z := base58.count_leading_zeros data).
  pose proof (count_leading_zeros_le data) as Hz. fold z in Hz.
  set (n := from_digits 256 (skipn z data)).
  set (size := ((length data - z) * 138 / 100 + 1)%nat).
  rewrite length_app, repeat_length.
  pose proof (skipn_bytes_bound data z Hdata) as Hn. fold n in Hn.
  destruct (Z.eq_dec n 0) as [E|E].
  - rewrite E. assert (H0 : to_digits 58 size 0 [] = [])
      by (destruct size; reflexivity).
    rewrite H0. simpl. lia.
  - pose proof (to_digits_short 58 ltac:(lia) size n [] ltac:(lia)) as Hs.
    cbn [length] in Hs.
    set (len := length (to_digits 58 size n [])) in *.
    destruct (le_lt_dec (z + len) 44) as [Hle|Hgt]; [assumption|].
    exfalso.
    pose proof (proj2 (radix_sizes (length data - z) ltac:(lia))) as Hr.
    assert (Hmono : 58 ^ Z.of_nat (12 + (length data - z))
                    <= 58 ^ Z.of_nat (len - 0 - 1))
      by (apply Z.pow_le_mono_r; lia).
    lia.
Qed.

(** C9.  For every 32-byte value, building the base-58 text and building a
    key back from that text gives the value again. *)
Theorem base58_round_trip (v : PublicKey) (indeterminate : list Z) :
  length (bytes v) = 32%nat ->
  Forall (fun b => 0 <= b < 256) (bytes v) ->
  PublicKey_of_string indeterminate (to_base58 v) = v.
Proof.
  intros Hlen Hbytes. destruct v as [data]. cbn [bytes] in *.
  assert (Htext : to_base58 (mkPublicKey data)
                  = string_of_list_ascii
                      (map base58.digit_char (text_digits data))).
  { unfold to_base58, base58.b58enc. cbn [bytes].
    set (z := base58.count_leading_zeros data).
    set (size := ((length data - z) * 138 / 100 + 1)%nat).
    set (text := repeat "1"%char z ++ map base58.digit_char _).
    assert (Ht : text = map base58.digit_char (text_digits data)).
    { unfold text, text_digits. fold z. fold size.
      rewrite map_app, map_repeat. reflexivity. }
    pose proof (text_digits_length data Hlen Hbytes) as Hl.
    rewrite <- (length_map base58.digit_char), <- Ht in Hl.
    destruct (Nat.leb_spec 45 (length text)) as [Hbad|_]; [lia|].
    cbn [Nat.sub]. rewrite Nat.sub_0_r.
    rewrite firstn_app, firstn_all, Nat.sub_diag. cbn [firstn].
    now rewrite app_nil_r, Ht. }
  unfold PublicKey_of_string. rewrite Htext.
  rewrite list_ascii_of_string_of_list_ascii.
  rewrite c_str_digits by apply text_digits_digits.
  unfold base58.b58tobin.
  pose proof (from_digits_bound 256 ltac:(lia) data Hbytes) as Hb.
  rewrite Hlen in Hb.
  rewrite accumulate_digits.
  - rewrite Z.mul_0_l, Z.add_0_l, text_digits_value by assumption.
    cbn [snd]. f_equal. unfold PUBLIC_KEY_LENGTH. rewrite <- Hlen.
    rewrite to_digits_fixed_from_digits by assumption.
    apply app_nil_r.
  - apply text_digits_digits.
  - lia.
  - rewrite Z.mul_0_l, Z.add_0_l, text_digits_value by assumption.
    unfold PUBLIC_KEY_LENGTH. lia.
Qed.

Lemma base58_round_trip_witness :
  to_base58 (key 1) = "4uQeVj5tqViQh7yWWGStvkEG1Zmhx6uasJtWCJziofM"
  /\ PublicKey_of_string [] "4uQeVj5tqViQh7yWWGStvkEG1Zmhx6uasJtWCJziofM"
     = key 1.
Proof.
  assert (H : to_base58 (key 1)
              = "4uQeVj5tqViQh7yWWGStvkEG1Zmhx6uasJtWCJziofM")
    by (vm_compute; reflexivity).
  split; [exact H|]. rewrite <- H.
  apply base58_round_trip.
  - reflexivity.
  - unfold key. cbn [bytes]. repeat constructor; lia.
Defined.

(** ** Further properties of [compile] *)

(** [compile] raises exactly when there is no instruction or no signer. *)
Theorem compile_total (m : TM.t) (signers : list Keypair) :
  match TM.instructions m, signers with
  | [], _ => TM.compile m signers
             = Throw (runtime_error "No instructions provided")
  | _ :: _, [] => TM.compile m signers
                  = Throw (runtime_error "No signers provided")
  | _ :: _, _ :: _ => exists msg, TM.compile m signers = Ok msg
  end.
Proof.
  destruct (TM.instructions m) as [|i instrs] eqn:Hi.
  - unfold TM.compile. now rewrite Hi.
  - destruct signers as [|signer0 rest].
    + unfold TM.compile. now rewrite Hi.
    + eexists. apply compile_eq. rewrite Hi. discriminate.
Qed.

(** The program lookup is not checked: over a key list that lacks the
    program, an instruction still compiles, with the length of the list as
    its program index. *)
Lemma compile_instruction_program_unchecked (keys : list PublicKey)
    (i : TM.Instruction) :
  ~ In (TM.programId i) keys ->
  Forall (fun a => In (TM.pubkey a) keys) (TM.accounts i) ->
  exists c,
    TM.compile_instruction keys i = Ok c
    /\ CM.programIdIndex c = uint8 (Z.of_nat (length keys)).
Proof.
  intros Hp Ha. unfold TM.compile_instruction.
  rewrite (account_indexes_total keys (TM.accounts i) [] Ha). simpl.
  eexists. split; [reflexivity|]. simpl. do 2 f_equal.
  pose proof (std_find_le (fun k => pubkey_eqb k (TM.programId i)) keys).
  destruct (Nat.eq_dec
              (std_find (fun k => pubkey_eqb k (TM.programId i)) keys)
              (length keys)) as [E|E]; [exact E|].
  exfalso. apply Hp. apply find_key_In. lia.
Qed.

Lemma collect_account_nodup (metas : list TM.AccountMeta)
    (a : TM.AccountMeta) :
  NoDup (map TM.pubkey metas) ->
  NoDup (map TM.pubkey (TM.collect_account metas a)).
Proof.
  intros H. unfold TM.collect_account.
  destruct (Nat.eqb_spec
              (std_find (fun m => TM.meta_eqb m a) metas) (length metas))
    as [E|E]; [|assumption].
  rewrite map_app. simpl.
  apply NoDup_app; [assumption | repeat constructor; intros [] |].
  intros k Hk [<-|[]].
  apply in_map_iff in Hk. destruct Hk as [m [Hm Hin]].
  rewrite std_find_end in E. specialize (E m Hin). simpl in E.
  unfold TM.meta_eqb in E. apply pubkey_eqb_neq in E. contradiction.
Qed.

Lemma collect_accounts_nodup (instrs : list TM.Instruction) :
  NoDup (map TM.pubkey (TM.collect_accounts instrs)).
Proof.
  unfold TM.collect_accounts.
  assert (H : forall accs metas,
            NoDup (map TM.pubkey metas) ->
            NoDup (map TM.pubkey (fold_left TM.collect_account accs metas))).
  { induction accs as [|a accs IH]; intros metas Hm; simpl; [assumption|].
    apply IH. now apply collect_account_nodup. }
  assert (G : forall l metas,
            NoDup (map TM.pubkey metas) ->
            NoDup (map TM.pubkey
                     (fold_left (fun accountMetas instruction =>
                        fold_left TM.collect_account
                                  (TM.accounts instruction) accountMetas)
                        l metas))).
  { induction l as [|i l IH]; intros metas Hm; simpl; [assumption|].
    apply IH. now apply H. }
  apply G. constructor.
Qed.

(** Every key of [collect_accounts] is the key of an account of some
    instruction. *)
Lemma collect_accounts_origin (instrs : list TM.Instruction) (k : PublicKey) :
  In k (map TM.pubkey (TM.collect_accounts instrs)) ->
  exists i a, In i instrs /\ In a (TM.accounts i) /\ TM.pubkey a = k.
Proof.
  unfold TM.collect_accounts.
  assert (H : forall accs metas,
            In k (map TM.pubkey (fold_left TM.collect_account accs metas)) ->
            In k (map TM.pubkey metas)
            \/ exists a, In a accs /\ TM.pubkey a = k).
  { induction accs as [|a accs IH]; intros metas Hk; simpl in *; [now left|].
    destruct (IH _ Hk) as [Hm|[b [Hb Hkb]]].
    - unfold TM.collect_account in Hm.
      destruct (_ =? _)%nat; [|now left].
      rewrite map_app, in_app_iff in Hm. destruct Hm as [Hm|[Hm|[]]];
        [now left|]. right. exists a. split; [now left | assumption].
    - right. exists b. split; [now right | assumption]. }
  assert (G : forall l metas,
            In k (map TM.pubkey
                    (fold_left (fun accountMetas instruction =>
                       fold_left TM.collect_account
                                 (TM.accounts instruction) accountMetas)
                       l metas)) ->
            In k (map TM.pubkey metas)
            \/ exists i a, In i l /\ In a (TM.accounts i) /\ TM.pubkey a = k).
  { induction l as [|i l IH]; intros metas Hk; simpl in *; [now left|].
    destruct (IH _ Hk) as [Hm|(j & a & Hj & Ha & Hka)].
    - destruct (H _ _ Hm) as [Hm'|[a [Ha Hka]]]; [now left|].
      right. exists i, a. repeat split; [now left | assumption..].
    - right. exists j, a. repeat split; [now right | assumption..]. }
  intros Hk. destruct (G _ _ Hk) as [[]|Hex]. exact Hex.
Qed.

Lemma collect_programs_nodup (instrs : list TM.Instruction)
    (metas : list TM.AccountMeta) :
  NoDup (map TM.pubkey metas) ->
  (forall i, In i instrs -> ~ In (TM.programId i) (map TM.pubkey metas)) ->
  NoDup (map TM.pubkey (TM.collect_programs instrs metas)).
Proof.
  intros Hnd Hfresh. unfold TM.collect_programs.
  assert (G : forall l pids ms,
            NoDup (map TM.pubkey ms) ->
            (forall k, In k (map TM.pubkey ms) ->
                       In k (map TM.pubkey metas) \/ In k pids) ->
            (forall i, In i l ->
                       ~ In (TM.programId i) (map TM.pubkey metas)) ->
            NoDup (map TM.pubkey
                     (snd (fold_left TM.collect_program l (pids, ms))))).
  { induction l as [|i l IH]; intros pids ms Hms Hsrc Hl; simpl;
      [assumption|].
    destruct (Nat.eqb_spec
                (std_find (fun p => pubkey_eqb p (TM.programId i)) pids)
                (length pids)) as [E|E].
    - apply IH.
      + rewrite map_app. simpl.
        apply NoDup_app; [assumption | repeat constructor; intros [] |].
        intros k Hk [<-|[]].
        destruct (Hsrc _ Hk) as [Hm|Hp].
        * apply (Hl i (or_introl eq_refl)). exact Hm.
        * apply find_key_In in Hp. lia.
      + intros k Hk. rewrite map_app, in_app_iff in Hk.
        destruct Hk as [Hk|[<-|[]]].
        * destruct (Hsrc _ Hk); [now left | right].
          apply in_app_iff. now left.
        * right. apply in_app_iff. right. now left.
      + intros j Hj. apply Hl. now right.
    - apply IH; try assumption. intros j Hj. apply Hl. now right. }
  apply G; try assumption. intros k Hk. now left.
Qed.

Lemma move_fee_payer_keys_perm (metas : list TM.AccountMeta)
    (fee_payer : PublicKey) :
  In fee_payer (map TM.pubkey metas) ->
  Permutation (map TM.pubkey (TM.move_fee_payer metas fee_payer))
              (map TM.pubkey metas).
Proof.
  intros Hin. rewrite move_fee_payer_present by assumption.
  set (p := fun m => TM.meta_eqb_key m fee_payer).
  assert (Hlt : (std_find p metas < length metas)%nat).
  { apply in_map_iff in Hin. destruct Hin as [m [Hm Hin]].
    apply std_find_exists with (x := m); [assumption|].
    unfold p, TM.meta_eqb_key. rewrite Hm. apply pubkey_eqb_refl. }
  set (d := TM.mkAccountMeta fee_payer true true).
  assert (Hp : TM.pubkey (nth (std_find p metas) metas d) = fee_payer).
  { apply pubkey_eqb_eq. apply (std_find_found p metas d Hlt). }
  transitivity
    (map TM.pubkey
       (firstn (std_find p metas) metas
          ++ nth (std_find p metas) metas d
          :: skipn (S (std_find p metas)) metas));
    [|now rewrite <- erase_split].
  unfold erase. cbn [map]. rewrite !map_app. cbn [map]. rewrite Hp.
  unfold d. cbn [TM.pubkey]. apply Permutation_middle.
Qed.

Lemma move_fee_payer_nodup (metas : list TM.AccountMeta)
    (fee_payer : PublicKey) :
  NoDup (map TM.pubkey metas) ->
  NoDup (map TM.pubkey (TM.move_fee_payer metas fee_payer)).
Proof.
  intros Hnd.
  destruct (in_dec PublicKey_eq_dec fee_payer (map TM.pubkey metas))
    as [Hin|Hin].
  - eapply Permutation_NoDup; [|exact Hnd].
    symmetry. now apply move_fee_payer_keys_perm.
  - rewrite move_fee_payer_absent by assumption. simpl. now constructor.
Qed.

Lemma filter_split_perm {A} (f : A -> bool) (l : list A) :
  Permutation (filter f l ++ filter (fun x => negb (f x)) l) l.
Proof.
  induction l as [|x l IH]; simpl; [constructor|].
  destruct (f x); simpl.
  - now constructor.
  - rewrite <- Permutation_middle. now constructor.
Qed.

Lemma final_keys_perm (instrs : list TM.Instruction) (fee_payer : PublicKey) :
  Permutation (final_keys instrs fee_payer)
              (map TM.pubkey (TM.ordered_metas instrs fee_payer)).
Proof.
  unfold final_keys. rewrite split_keys_signed, split_keys_unsigned.
  rewrite <- map_app. apply Permutation_map. apply filter_split_perm.
Qed.

Lemma NoDup_app_disjoint {A} (l l' : list A) (a : A) :
  NoDup (l ++ l') -> In a l -> In a l' -> False.
Proof.
  induction l as [|x l IH]; simpl; intros Hnd Hl Hl'; [destruct Hl|].
  inversion Hnd as [|? ? Hx Hnd']; subst.
  destruct Hl as [->|Hl]; [|now apply IH].
  apply Hx. apply in_app_iff. now right.
Qed.

(** The program loop only ever appends: what it adds is one read-only,
    non-signer entry per distinct program id. *)
Lemma collect_programs_appends (instrs : list TM.Instruction)
    (metas : list TM.AccountMeta) :
  exists pids,
    TM.collect_programs instrs metas
    = metas ++ map (fun q => TM.mkAccountMeta q false false) pids
    /\ forall i, In i instrs -> In (TM.programId i) pids.
Proof.
  unfold TM.collect_programs.
  assert (G : forall l pids0 ms,
            exists fresh,
              fold_left TM.collect_program l (pids0, ms)
              = (pids0 ++ fresh,
                 ms ++ map (fun q => TM.mkAccountMeta q false false) fresh)
              /\ forall i, In i l -> In (TM.programId i) (pids0 ++ fresh)).
  { induction l as [|i l IH]; intros pids0 ms; simpl.
    - exists []. simpl. rewrite !app_nil_r. split; [reflexivity|].
      intros i [].
    - destruct (Nat.eqb_spec
                  (std_find (fun p => pubkey_eqb p (TM.programId i)) pids0)
                  (length pids0)) as [E|E].
      + destruct (IH (pids0 ++ [TM.programId i])
                     (ms ++ [TM.mkAccountMeta (TM.programId i) false false]))
          as (fresh & Hf & Hall).
        exists (TM.programId i :: fresh). rewrite Hf. simpl.
        rewrite <- !app_assoc. simpl. split; [reflexivity|].
        intros j [<-|Hj].
        * apply in_app_iff. right. now left.
        * specialize (Hall j Hj). now rewrite <- app_assoc in Hall.
      + destruct (IH pids0 ms) as (fresh & Hf & Hall).
        exists fresh. split; [assumption|].
        intros j [<-|Hj]; [|now apply Hall].
        apply in_app_iff. left. apply find_key_In.
        pose proof (std_find_le
                      (fun p => pubkey_eqb p (TM.programId i)) pids0). lia. }
  destruct (G instrs [] metas) as (fresh & Hf & Hall).
  exists fresh. rewrite Hf. simpl. split; [reflexivity | exact Hall].
Qed.

(** [accountKeys] lists every address once exactly when no program of the
    transaction is also one of its accounts. *)
Theorem compile_keys_distinct (m : TM.t) (signers : list Keypair)
    (msg : CM.t) :
  TM.compile m signers = Ok msg ->
  NoDup (CM.accountKeys msg)
  <-> (forall i j a, In i (TM.instructions m) -> In j (TM.instructions m) ->
                     In a (TM.accounts j) -> TM.programId i <> TM.pubkey a).
Proof.
  intros Hc.
  destruct signers as [|signer0 rest].
  { unfold TM.compile in Hc. destruct (TM.instructions m); discriminate. }
  assert (Hne : TM.instructions m <> []).
  { intros E. unfold TM.compile in Hc. rewrite E in Hc. discriminate. }
  rewrite (compile_eq m signer0 rest Hne) in Hc. injection Hc as <-. simpl.
  set (instrs := TM.instructions m). set (fp := publicKey signer0).
  split.
  - intros Hnd i j a Hi Hj Ha Heq.
    apply (Permutation_NoDup (final_keys_perm instrs fp)) in Hnd.
    unfold TM.ordered_metas in Hnd.
    set (sorted := std_sort TM.meta_less
                     (TM.collect_programs instrs
                        (TM.collect_accounts instrs))) in *.
    assert (Hs : NoDup (map TM.pubkey sorted)).
    { destruct (in_dec PublicKey_eq_dec fp (map TM.pubkey sorted))
        as [Hin|Hin].
      - eapply Permutation_NoDup;
          [apply (move_fee_payer_keys_perm sorted fp Hin) | exact Hnd].
      - rewrite move_fee_payer_absent in Hnd by assumption.
        simpl in Hnd. now inversion Hnd. }
    apply (Permutation_NoDup
             (Permutation_map TM.pubkey
                (std_sort_perm TM.meta_less _))) in Hs.
    destruct (collect_programs_appends instrs (TM.collect_accounts instrs))
      as (pids & Hpids & Hall).
    rewrite Hpids, map_app, map_map in Hs. simpl in Hs. rewrite map_id in Hs.
    apply (NoDup_app_disjoint _ _ (TM.programId i) Hs).
    + rewrite Heq. now apply collect_accounts_key with (i := j).
    + now apply Hall.
  - intros Hsep.
    eapply Permutation_NoDup; [symmetry; apply final_keys_perm|].
    unfold TM.ordered_metas. apply move_fee_payer_nodup.
    eapply Permutation_NoDup;
      [apply Permutation_map; symmetry; apply std_sort_perm|].
    apply collect_programs_nodup; [apply collect_accounts_nodup|].
    intros i Hi Hk. apply collect_accounts_origin in Hk.
    destruct Hk as (j & a & Hj & Ha & Hka).
    apply (Hsep i j a Hi Hj Ha). now symmetry.
Qed.

Lemma compile_keys_distinct_witness :
  TM.compile tx_simple [payer] = Ok msg_simple
  /\ NoDup (CM.accountKeys msg_simple).
Proof.
  assert (Hc : TM.compile tx_simple [payer] = Ok msg_simple)
    by (vm_compute; reflexivity).
  split; [exact Hc|].
  apply (compile_keys_distinct tx_simple [payer] msg_simple Hc).
  intros i j a [<-|[]] [<-|[]] Ha. simpl in Ha.
  destruct Ha as [<-|[<-|[<-|[]]]]; discriminate.
Defined.

(** ** Compact lengths at the boundaries *)

Example encode_length_boundaries :
  map (fun n => encode_length (Z.to_nat n)) [0; 127; 128; 16383; 16384]
  = [[0]; [127]; [128; 1]; [255; 127]; [128; 128; 1]].
Proof. vm_compute. reflexivity. Qed.

(* ================================================================== *)
(** * Part III: further properties of the program                      *)
(* ================================================================== *)

(** ** Which keys [compile] lists *)

Lemma collect_programs_origin (instrs : list TM.Instruction)
    (metas : list TM.AccountMeta) (k : PublicKey) :
  In k (map TM.pubkey (TM.collect_programs instrs metas)) ->
  In k (map TM.pubkey metas)
  \/ exists i, In i instrs /\ TM.programId i = k.
Proof.
  unfold TM.collect_programs.
  assert (G : forall l pids ms,
            In k (map TM.pubkey
                    (snd (fold_left TM.collect_program l (pids, ms)))) ->
            In k (map TM.pubkey ms)
            \/ exists i, In i l /\ TM.programId i = k).
  { induction l as [|i l IH]; intros pids ms Hk; simpl in *; [now left|].
    destruct (_ =? _)%nat.
    - destruct (IH _ _ Hk) as [Hm|(j & Hj & Hkj)].
      + rewrite map_app, in_app_iff in Hm. destruct Hm as [Hm|[Hm|[]]];
          [now left|]. right. exists i. split; [now left | exact Hm].
      + right. exists j. split; [now right | exact Hkj].
    - destruct (IH _ _ Hk) as [Hm|(j & Hj & Hkj)]; [now left|].
      right. exists j. split; [now right | exact Hkj]. }
  apply G.
Qed.

Lemma move_fee_payer_origin (metas : list TM.AccountMeta)
    (fee_payer k : PublicKey) :
  In k (map TM.pubkey (TM.move_fee_payer metas fee_payer)) ->
  k = fee_payer \/ In k (map TM.pubkey metas).
Proof.
  destruct (in_dec PublicKey_eq_dec fee_payer (map TM.pubkey metas))
    as [Hin|Hin].
  - intros Hk. right.
    eapply Permutation_in;
      [apply (move_fee_payer_keys_perm metas fee_payer Hin) | exact Hk].
  - rewrite move_fee_payer_absent by assumption. simpl.
    intros [<-|Hk]; [now left | now right].
Qed.

(** The key list of a compiled message holds the fee payer and the keys the
    instructions name, as accounts or as programs, and no other key. *)
Theorem compile_keys_exact (m : TM.t) (signer0 : Keypair)
    (rest : list Keypair) (msg : CM.t) :
  TM.compile m (signer0 :: rest) = Ok msg ->
  forall k,
    In k (CM.accountKeys msg)
    <-> (k = publicKey signer0
         \/ exists i, In i (TM.instructions m)
              /\ (TM.programId i = k
                  \/ exists a, In a (TM.accounts i) /\ TM.pubkey a = k)).
Proof.
  intros Hc k.
  assert (Hne : TM.instructions m <> []).
  { intros E. unfold TM.compile in Hc. rewrite E in Hc. discriminate. }
  rewrite (compile_eq m signer0 rest Hne) in Hc. injection Hc as <-. simpl.
  set (instrs := TM.instructions m). set (fp := publicKey signer0).
  split.
  - intros Hk.
    apply (Permutation_in _ (final_keys_perm instrs fp)) in Hk.
    unfold TM.ordered_metas in Hk.
    apply move_fee_payer_origin in Hk. destruct Hk as [->|Hk]; [now left|].
    right.
    apply (Permutation_in _
             (Permutation_map TM.pubkey (std_sort_perm TM.meta_less _)))
      in Hk.
    apply collect_programs_origin in Hk.
    destruct Hk as [Hk|(i & Hi & Hki)].
    + apply collect_accounts_origin in Hk.
      destruct Hk as (i & a & Hi & Ha & Hka).
      exists i. split; [assumption|]. right. now exists a.
    + exists i. split; [assumption|]. now left.
  - intros [->|(i & Hi & [<-|(a & Ha & <-)])].
    + eapply Permutation_in; [symmetry; apply final_keys_perm|].
      destruct (move_fee_payer_head
                  (std_sort TM.meta_less
                     (TM.collect_programs instrs
                        (TM.collect_accounts instrs))) fp) as [tl Htl].
      unfold TM.ordered_metas. rewrite Htl. now left.
    + now apply final_keys_program.
    + now apply final_keys_account with (i := i).
Qed.

Lemma compile_keys_exact_witness :
  In (key 3) (CM.accountKeys msg_simple)
  /\ ~ In (key 9) (CM.accountKeys msg_simple).
Proof.
  assert (Hc : TM.compile tx_simple [payer] = Ok msg_simple)
    by (vm_compute; reflexivity).
  pose proof (compile_keys_exact tx_simple payer [] msg_simple Hc) as H.
  split.
  - apply (proj2 (H (key 3))). right.
    eexists. split; [left; reflexivity|]. right.
    eexists. split; [right; right; left; reflexivity | reflexivity].
  - intros Hk. apply (proj1 (H (key 9))) in Hk.
    destruct Hk as [Hk|(i & [<-|[]] & [Hk|(a & Ha & Hk)])];
      try discriminate Hk.
    simpl in Ha. destruct Ha as [<-|[<-|[<-|[]]]]; discriminate Hk.
Defined.

(** ** The order of the key list and the header counts *)

Lemma meta_less_rank (x y : TM.AccountMeta) :
  TM.meta_less y x = false -> rank_le x y.
Proof.
  unfold TM.meta_less, rank_le, meta_rank.
  destruct (TM.isSigner x), (TM.isSigner y), (TM.isWritable x),
    (TM.isWritable y); simpl; intros H; try discriminate H; lia.
Qed.

Lemma ordered_ranked (l : list TM.AccountMeta) :
  ordered TM.meta_less l = true -> StronglySorted rank_le l.
Proof.
  intros Ho. apply Sorted_StronglySorted.
  - intros a b c Hab Hbc. unfold rank_le in *. lia.
  - induction l as [|x l IH]; [constructor|].
    constructor.
    + apply IH. destruct l as [|y l]; [reflexivity|].
      cbn [ordered] in Ho. now apply andb_true_iff in Ho.
    + destruct l as [|y l]; constructor.
      cbn [ordered] in Ho. apply andb_true_iff in Ho.
      destruct Ho as [Hyx _]. apply negb_true_iff in Hyx.
      now apply meta_less_rank.
Qed.

Lemma erase_ranked (l : list TM.AccountMeta) (i : nat) :
  StronglySorted rank_le l -> StronglySorted rank_le (erase l i).
Proof.
  intros H; revert i; induction H as [|x l Hl IH Hx]; intros i.
  - unfold erase. destruct i; simpl; constructor.
  - destruct i as [|i]; [exact Hl|].
    change (erase (x :: l) (S i)) with (x :: erase l i).
    constructor; [apply IH|].
    apply Forall_forall. intros y Hy. rewrite Forall_forall in Hx.
    apply Hx. unfold erase in Hy. apply in_app_iff in Hy.
    destruct Hy as [Hy|Hy].
    + rewrite <- (firstn_skipn i l). apply in_app_iff. now left.
    + rewrite <- (firstn_skipn (S i) l). apply in_app_iff. now right.
Qed.

Lemma ordered_metas_ranked (instrs : list TM.Instruction)
    (fee_payer : PublicKey) :
  StronglySorted rank_le (TM.ordered_metas instrs fee_payer).
Proof.
  unfold TM.ordered_metas.
  set (sorted := std_sort TM.meta_less _).
  assert (Hs : StronglySorted rank_le sorted)
    by (apply ordered_ranked, sorted_metas_ordered).
  assert (Hfront : forall tl, StronglySorted rank_le tl ->
            StronglySorted rank_le
              (TM.mkAccountMeta fee_payer true true :: tl)).
  { intros tl Htl. constructor; [assumption|].
    apply Forall_forall. intros y _. unfold rank_le, meta_rank. simpl. lia. }
  destruct (in_dec PublicKey_eq_dec fee_payer (map TM.pubkey sorted))
    as [Hin|Hin].
  - rewrite move_fee_payer_present by assumption.
    apply Hfront. now apply erase_ranked.
  - rewrite move_fee_payer_absent by assumption. now apply Hfront.
Qed.

Lemma filter_none {A} (p : A -> bool) (l : list A) :
  Forall (fun a => p a = false) l -> filter p l = [].
Proof.
  induction 1 as [|x l Hx _ IH]; simpl; [reflexivity|]. now rewrite Hx.
Qed.

(** In a list in the order of the sort the four classes follow each
    other. *)
Lemma ranked_blocks (l : list TM.AccountMeta) :
  StronglySorted rank_le l ->
  l = filter (fun a => TM.isSigner a && TM.isWritable a) l
        ++ filter (fun a => TM.isSigner a && negb (TM.isWritable a)) l
        ++ filter (fun a => negb (TM.isSigner a) && TM.isWritable a) l
        ++ filter (fun a => negb (TM.isSigner a) && negb (TM.isWritable a))
                  l.
Proof.
  induction 1 as [|x l Hl IH Hx]; [reflexivity|].
  assert (Hlow : forall p : TM.AccountMeta -> bool,
            (forall a, rank_le x a -> p a = false) -> filter p l = []).
  { intros p Hp. apply filter_none. apply Forall_forall. intros a Ha.
    apply Hp. rewrite Forall_forall in Hx. now apply Hx. }
  assert (Hrank : forall p : TM.AccountMeta -> bool,
            (forall s w : bool, (meta_rank x
                          <= (if s then 0 else 2) + (if w then 0 else 1))%nat
                         -> p (TM.mkAccountMeta PublicKey_default s w) = false)
            -> (forall a, p a
                          = p (TM.mkAccountMeta PublicKey_default
                                 (TM.isSigner a) (TM.isWritable a)))
            -> filter p l = []).
  { intros p Hp Hflags. apply Hlow. intros a Ha. rewrite Hflags.
    apply Hp. exact Ha. }
  cbn [filter].
  destruct (TM.isSigner x) eqn:Hs, (TM.isWritable x) eqn:Hw; cbn [andb negb].
  - cbn [app]. f_equal. exact IH.
  - assert (H1 : filter (fun a => TM.isSigner a && TM.isWritable a) l = []).
    { apply Hrank; [|reflexivity]. unfold meta_rank. rewrite Hs, Hw.
      intros [] []; simpl; lia || reflexivity. }
    rewrite H1. cbn [app]. f_equal. rewrite IH at 1. now rewrite H1.
  - assert (H1 : filter (fun a => TM.isSigner a && TM.isWritable a) l = []).
    { apply Hrank; [|reflexivity]. unfold meta_rank. rewrite Hs, Hw.
      intros [] []; simpl; lia || reflexivity. }
    assert (H2 : filter (fun a => TM.isSigner a && negb (TM.isWritable a)) l
                 = []).
    { apply Hrank; [|reflexivity]. unfold meta_rank. rewrite Hs, Hw.
      intros [] []; simpl; lia || reflexivity. }
    rewrite H1, H2. cbn [app]. f_equal.
    rewrite IH at 1. now rewrite H1, H2.
  - assert (H1 : filter (fun a => TM.isSigner a && TM.isWritable a) l = []).
    { apply Hrank; [|reflexivity]. unfold meta_rank. rewrite Hs, Hw.
      intros [] []; simpl; lia || reflexivity. }
    assert (H2 : filter (fun a => TM.isSigner a && negb (TM.isWritable a)) l
                 = []).
    { apply Hrank; [|reflexivity]. unfold meta_rank. rewrite Hs, Hw.
      intros [] []; simpl; lia || reflexivity. }
    assert (H3 : filter (fun a => negb (TM.isSigner a) && TM.isWritable a) l
                 = []).
    { apply Hrank; [|reflexivity]. unfold meta_rank. rewrite Hs, Hw.
      intros [] []; simpl; lia || reflexivity. }
    rewrite H1, H2, H3. cbn [app]. f_equal.
    rewrite IH at 1. now rewrite H1, H2, H3.
Qed.

Lemma ranked_signers_first (l : list TM.AccountMeta) :
  StronglySorted rank_le l ->
  l = filter TM.isSigner l ++ filter (fun a => negb (TM.isSigner a)) l.
Proof.
  induction 1 as [|x l Hl IH Hx]; [reflexivity|].
  cbn [filter]. destruct (TM.isSigner x) eqn:Hs; cbn [negb app].
  - f_equal. exact IH.
  - assert (H1 : filter TM.isSigner l = []).
    { apply filter_none. apply Forall_forall. intros a Ha.
      rewrite Forall_forall in Hx. specialize (Hx a Ha).
      unfold rank_le, meta_rank in Hx. rewrite Hs in Hx.
      destruct (TM.isSigner a), (TM.isWritable x), (TM.isWritable a);
        simpl in Hx; lia || reflexivity. }
    rewrite H1. cbn [app]. f_equal. rewrite IH at 1. now rewrite H1.
Qed.

Lemma signer_count_split (l : list TM.AccountMeta) :
  length (filter TM.isSigner l)
  = (length (filter (fun a => TM.isSigner a && TM.isWritable a) l)
     + length (filter (fun a => TM.isSigner a && negb (TM.isWritable a)) l)
    )%nat.
Proof.
  induction l as [|x l IH]; [reflexivity|]. cbn [filter].
  destruct (TM.isSigner x), (TM.isWritable x); simpl; lia.
Qed.

(** The key list is the ordered account list itself, laid out as writable
    signers, read-only signers, writable non-signers, read-only non-signers,
    and the three header bytes count the signers, the read-only signers and
    the read-only non-signers of it (as bytes). *)
Theorem compile_key_layout (m : TM.t) (signer0 : Keypair)
    (rest : list Keypair) (msg : CM.t) :
  TM.compile m (signer0 :: rest) = Ok msg ->
  let metas := TM.ordered_metas (TM.instructions m) (publicKey signer0) in
  let ws := filter (fun a => TM.isSigner a && TM.isWritable a) metas in
  let rs := filter (fun a => TM.isSigner a && negb (TM.isWritable a)) metas in
  let wu := filter (fun a => negb (TM.isSigner a) && TM.isWritable a) metas in
  let ru := filter (fun a => negb (TM.isSigner a) && negb (TM.isWritable a))
                   metas in
  CM.accountKeys msg = map TM.pubkey (ws ++ rs ++ wu ++ ru)
  /\ metas = ws ++ rs ++ wu ++ ru
  /\ numRequiredSignatures (CM.header msg)
     = Z.of_nat (length ws + length rs) mod 256
  /\ numReadonlySignedAccounts (CM.header msg)
     = Z.of_nat (length rs) mod 256
  /\ numReadonlyUnsignedAccounts (CM.header msg)
     = Z.of_nat (length ru) mod 256.
Proof.
  intros Hc metas ws rs wu ru.
  assert (Hne : TM.instructions m <> []).
  { intros E. unfold TM.compile in Hc. rewrite E in Hc. discriminate. }
  rewrite (compile_eq m signer0 rest Hne) in Hc. injection Hc as <-. simpl.
  fold metas.
  pose proof (ordered_metas_ranked (TM.instructions m) (publicKey signer0))
    as Hr. fold metas in Hr.
  pose proof (ranked_blocks metas Hr) as Hb.
  fold ws rs wu ru in Hb.
  split; [|split; [exact Hb|split; [|split]]].
  - rewrite <- Hb. unfold final_keys. fold metas.
    rewrite split_keys_signed, split_keys_unsigned, <- map_app.
    f_equal. symmetry. now apply ranked_signers_first.
  - rewrite split_keys_required, signer_count_split. reflexivity.
  - apply split_keys_readonly_signed.
  - apply split_keys_readonly_unsigned.
Qed.

Lemma compile_key_layout_witness :
  CM.accountKeys msg_simple
  = map TM.pubkey
      ([TM.mkAccountMeta (key 1) true true]
         ++ [TM.mkAccountMeta (key 4) true false]
         ++ [TM.mkAccountMeta (key 3) false true]
         ++ [TM.mkAccountMeta (key 5) false false])
  /\ numReadonlyUnsignedAccounts (CM.header msg_simple) = 1.
Proof.
  assert (Hc : TM.compile tx_simple [payer] = Ok msg_simple)
    by (vm_compute; reflexivity).
  destruct (compile_key_layout tx_simple payer [] msg_simple Hc)
    as (Hk & _ & _ & _ & Hu).
  split; [exact Hk | exact Hu].
Defined.

(** ** From [compile] to the wire *)

Section WireFacts.

Variable encode_length : nat -> list Z.

Lemma serialize_returns_layout (m : CM.t) :
  numRequiredSignatures (CM.header m) <> 0 ->
  CM.serialize encode_length m [] = Ok (CM.message_layout encode_length m).
Proof.
  intros Hn. unfold CM.serialize. simpl.
  destruct (Z.eqb_spec (numRequiredSignatures (CM.header m)) 0) as [E|_];
    [contradiction|].
  rewrite fold_serialize_instruction, fold_insert_keys.
  unfold CM.message_layout, CM.insert_end, CM.push_back. simpl.
  repeat rewrite <- app_assoc. reflexivity.
Qed.

Lemma ordered_metas_has_signer (instrs : list TM.Instruction)
    (fee_payer : PublicKey) :
  (1 <= length (filter TM.isSigner (TM.ordered_metas instrs fee_payer)))%nat.
Proof.
  unfold TM.ordered_metas.
  destruct (move_fee_payer_head
              (std_sort TM.meta_less
                 (TM.collect_programs instrs (TM.collect_accounts instrs)))
              fee_payer) as [tl ->].
  simpl. lia.
Qed.

(** What [compile] returns always serializes, unless the number of signer
    entries is a multiple of 256: then the signature count byte is 0 and
    [serialize] raises.  With at most 255 signer entries the first byte of
    the output is their number. *)
Theorem compile_then_serialize (m : TM.t) (signer0 : Keypair)
    (rest : list Keypair) (msg : CM.t) :
  TM.compile m (signer0 :: rest) = Ok msg ->
  let n := length (filter TM.isSigner
                     (TM.ordered_metas (TM.instructions m)
                                       (publicKey signer0))) in
  (Z.of_nat n mod 256 <> 0 ->
   CM.serialize encode_length msg []
   = Ok (CM.message_layout encode_length msg))
  /\ (Z.of_nat n mod 256 = 0 ->
      CM.serialize encode_length msg []
      = Throw (runtime_error "Message must have at least one signature"))
  /\ ((n <= 255)%nat ->
      exists tl,
        CM.serialize encode_length msg [] = Ok (Z.of_nat n :: tl)
        /\ 1 <= Z.of_nat n).
Proof.
  intros Hc n.
  assert (Hne : TM.instructions m <> []).
  { intros E. unfold TM.compile in Hc. rewrite E in Hc. discriminate. }
  assert (Hreq : numRequiredSignatures (CM.header msg)
                 = Z.of_nat n mod 256).
  { rewrite (compile_eq m signer0 rest Hne) in Hc. injection Hc as <-.
    simpl. apply split_keys_required. }
  pose proof (ordered_metas_has_signer (TM.instructions m)
                (publicKey signer0)) as Hpos. fold n in Hpos.
  split; [|split].
  - intros Hn. apply serialize_returns_layout. now rewrite Hreq.
  - intros Hn. unfold CM.serialize. simpl. rewrite Hreq, Hn. reflexivity.
  - intros Hle.
    assert (Hsmall : Z.of_nat n mod 256 = Z.of_nat n)
      by (apply Z.mod_small; lia).
    rewrite serialize_returns_layout by (rewrite Hreq, Hsmall; lia).
    unfold CM.message_layout. rewrite Hreq, Hsmall. simpl.
    eexists. split; [reflexivity | lia].
Qed.

(** The envelope loop appends the signatures as they are. *)
Lemma append_signatures_returns (sigs : list (list Z)) (buffer : list Z) :
  Forall (fun s => length s = 64%nat) sigs ->
  Signed.append_signatures sigs buffer = Returns (buffer ++ concat sigs).
Proof.
  intros H; revert buffer; induction H as [|s sigs Hs _ IH]; intros buffer;
    simpl.
  - now rewrite app_nil_r.
  - rewrite Hs. simpl. rewrite IH. now rewrite <- app_assoc.
Qed.

Lemma append_signatures_wrong_size (sigs : list (list Z)) (buffer : list Z) :
  Exists (fun s => length s <> 64%nat) sigs ->
  Signed.append_signatures sigs buffer = Faults assertion_failed.
Proof.
  intros H; revert buffer; induction H as [s sigs Hs|s sigs _ IH];
    intros buffer; simpl.
  - destruct (Nat.eqb_spec (length s) 64); [contradiction | reflexivity].
  - destruct (length s =? 64)%nat; simpl; [apply IH | reflexivity].
Qed.

(** The signed envelope: the compact count of the signatures, the
    signatures in order, 64 bytes each, then the message bytes.  Without
    message bytes the call raises "Message is not serialized". *)
Theorem envelope_layout (tx : Signed.t) (serialized_message : list Z) :
  Forall (fun s => length s = 64%nat) (Signed.signatures tx) ->
  (serialized_message <> [] ->
   Signed.serialize encode_length tx serialized_message
   = Returns (encode_length (length (Signed.signatures tx))
                ++ concat (Signed.signatures tx) ++ serialized_message)
   /\ length (concat (Signed.signatures tx))
      = (64 * length (Signed.signatures tx))%nat)
  /\ (serialized_message = [] ->
      Signed.serialize encode_length tx serialized_message
      = Faults (raised (runtime_error "Message is not serialized"))).
Proof.
  intros Hs. unfold Signed.serialize. cbn [app].
  rewrite append_signatures_returns by assumption. cbn [and_then].
  split.
  - intros Hne. destruct serialized_message as [|b bs]; [contradiction|].
    simpl length. cbn [Nat.eqb]. rewrite <- app_assoc. split; [reflexivity|].
    clear Hne. induction Hs as [|s sigs Hlen _ IH]; [reflexivity|].
    simpl. rewrite length_app, Hlen, IH. lia.
  - intros ->. reflexivity.
Qed.

End WireFacts.

Section SignFacts.

Variable crypto_sign_detached : list Z -> list Z -> Z * list Z.

Lemma sign_each_returns (signers : list Keypair) (msg : list Z)
    (acc : list (list Z)) :
  Forall (fun s => fst (crypto_sign_detached msg (secretKey s)) = 0)
         signers ->
  Signed.sign_each crypto_sign_detached signers msg acc
  = Ok (acc ++ map (fun s => snd (crypto_sign_detached msg (secretKey s)))
                   signers).
Proof.
  intros H; revert acc; induction H as [|s signers Hs _ IH]; intros acc;
    simpl.
  - now rewrite app_nil_r.
  - unfold Signed.Keypair_sign.
    destruct (crypto_sign_detached msg (secretKey s)) as [rc sig] eqn:E.
    simpl in Hs. subst rc. simpl. rewrite IH. now rewrite <- app_assoc.
Qed.

Lemma sign_each_fails (signers : list Keypair) (msg : list Z)
    (acc : list (list Z)) :
  Exists (fun s => fst (crypto_sign_detached msg (secretKey s)) <> 0)
         signers ->
  Signed.sign_each crypto_sign_detached signers msg acc
  = Throw (runtime_error "could not sign tx with private key").
Proof.
  intros H; revert acc; induction H as [s signers Hs|s signers _ IH];
    intros acc; simpl; unfold Signed.Keypair_sign.
  - destruct (crypto_sign_detached msg (secretKey s)) as [rc sig].
    simpl in Hs. destruct (Z.eqb_spec 0 rc); [congruence | reflexivity].
  - destruct (crypto_sign_detached msg (secretKey s)) as [rc sig].
    destruct (0 =? rc); simpl; [apply IH | reflexivity].
Qed.

(** [sign] on a transaction without signatures leaves one signature per
    signer, in the order of the signer list, each the library's signature
    of the same message bytes; it raises once the library refuses a
    signer. *)
Theorem sign_one_per_signer (tx : Signed.t) (msg : list Z)
    (signers : list Keypair) :
  Signed.signatures tx = [] ->
  (Forall (fun s => fst (crypto_sign_detached msg (secretKey s)) = 0)
          signers ->
   Signed.sign crypto_sign_detached tx msg signers
   = Returns (Signed.mk (Signed.message tx)
                (map (fun s => snd (crypto_sign_detached msg (secretKey s)))
                     signers)))
  /\ (Exists (fun s => fst (crypto_sign_detached msg (secretKey s)) <> 0)
             signers ->
      Signed.sign crypto_sign_detached tx msg signers
      = Faults (raised
                  (runtime_error "could not sign tx with private key"))).
Proof.
  intros He. unfold Signed.sign. rewrite He. cbn [length Nat.eqb negb].
  split; intros H.
  - now rewrite sign_each_returns.
  - now rewrite sign_each_fails.
Qed.

End SignFacts.

(** The bytes handed to the transport: when [compile] succeeds with a
    signature count byte that is not 0 and the library signs for every
    signer with 64 bytes, they are the compact count of the signers passed
    in, their signatures of the serialized message in signer order, and the
    serialized message.  The count is the length of the signer list, whatever
    the header asks for. *)
Theorem sign_and_send_transaction_layout
    (encode_length : nat -> list Z)
    (crypto_sign_detached : list Z -> list Z -> Z * list Z)
    (m : TM.t) (signers : list Keypair) (msg : CM.t) :
  TM.compile m signers = Ok msg ->
  numRequiredSignatures (CM.header msg) <> 0 ->
  let bytes_to_sign := CM.message_layout encode_length msg in
  Forall (fun s =>
            fst (crypto_sign_detached bytes_to_sign (secretKey s)) = 0
            /\ length (snd (crypto_sign_detached bytes_to_sign (secretKey s)))
               = 64%nat) signers ->
  sign_and_send_transaction_bytes encode_length crypto_sign_detached m signers
  = Returns
      (encode_length (length signers)
         ++ concat (map (fun s => snd (crypto_sign_detached bytes_to_sign
                                         (secretKey s))) signers)
         ++ bytes_to_sign).
Proof.
  intros Hc Hn bytes_to_sign Hsig.
  unfold sign_and_send_transaction_bytes. rewrite Hc. cbn [lift and_then].
  rewrite serialize_returns_layout by assumption. cbn [lift and_then].
  fold bytes_to_sign.
  unfold Signed.sign. cbn [Signed.signatures Signed.message length Nat.eqb negb].
  rewrite sign_each_returns.
  - cbn [lift and_then app]. unfold Signed.serialize.
    cbn [Signed.signatures app].
    rewrite append_signatures_returns.
    + cbn [and_then]. rewrite length_map.
      assert (Hne : (length bytes_to_sign =? 0)%nat = false)
        by (unfold bytes_to_sign, CM.message_layout; reflexivity).
      rewrite Hne. now rewrite <- app_assoc.
    + apply Forall_forall. intros sig Hin.
      apply in_map_iff in Hin. destruct Hin as [s [<- Hs]].
      rewrite Forall_forall in Hsig. now apply Hsig.
  - apply Forall_forall. intros s Hs. rewrite Forall_forall in Hsig.
    now apply Hsig.
Qed.

Lemma compile_then_serialize_witness :
  exists tl, CM.serialize encode_length msg_simple [] = Ok (2 :: tl).
Proof.
  assert (Hc : TM.compile tx_simple [payer] = Ok msg_simple)
    by (vm_compute; reflexivity).
  destruct (compile_then_serialize encode_length tx_simple payer []
              msg_simple Hc) as (_ & _ & H).
  destruct H as [tl [H _]]; [vm_compute; lia|].
  exists tl. exact H.
Defined.

Lemma envelope_layout_witness :
  Signed.serialize encode_length (Signed.mk msg_simple [repeat 7 64])
                   [1; 2; 3]
  = Returns (encode_length 1 ++ concat [repeat 7 64] ++ [1; 2; 3]).
Proof.
  destruct (envelope_layout encode_length
              (Signed.mk msg_simple [repeat 7 64]) [1; 2; 3]) as [H _].
  - repeat constructor.
  - destruct H as [H _]; [discriminate | exact H].
Defined.

Lemma sign_one_per_signer_witness :
  Signed.sign sample_sign (Signed.mk msg_simple []) [1; 2; 3]
              [payer; signer_of (key 4)]
  = Returns (Signed.mk msg_simple [repeat 6 64; repeat 6 64]).
Proof.
  destruct (sign_one_per_signer sample_sign (Signed.mk msg_simple [])
              [1; 2; 3] [payer; signer_of (key 4)] eq_refl) as [H _].
  apply H. repeat constructor.
Defined.

Lemma sign_and_send_transaction_layout_witness :
  numRequiredSignatures (CM.header msg_simple) = 2
  /\ exists sig,
       length sig = 64%nat
       /\ sign_and_send_transaction_bytes encode_length sample_sign
            tx_simple [payer]
          = Returns (encode_length 1 ++ concat [sig]
                       ++ CM.message_layout encode_length msg_simple).
Proof.
  split; [reflexivity|].
  assert (Hc : TM.compile tx_simple [payer] = Ok msg_simple)
    by (vm_compute; reflexivity).
  eexists. split;
    [|apply (sign_and_send_transaction_layout encode_length sample_sign
               tx_simple [payer] msg_simple Hc)].
  - reflexivity.
  - discriminate.
  - repeat constructor.
Defined.

(** ** [unwrap] after decoding *)

Section UnwrapFacts.

Variables T Context : Type.
Variable get_T : Json.json -> result T.
Variable get_Context : Json.json -> result Context.

(** For a decoded response, [unwrap] returns exactly when [ok] holds, and
    then it returns the decoded value; it raises the remote message exactly
    when the error slot is filled, which only happens for a response without
    a "result" member; and it faults on the empty optional when neither slot
    is filled, as for a null result. *)
Theorem unwrap_decoded (j : Json.json) (r : Result T Context) :
  decode_response T Context get_T get_Context j = Ok r ->
  (forall v, unwrap r = Returns v <-> _result r = Some v)
  /\ (ok T Context r = true <-> exists v, unwrap r = Returns v)
  /\ (forall msg,
        unwrap r = Faults (raised (runtime_error msg))
        <-> exists e, _error r = Some e /\ message e = msg)
  /\ (forall e, _error r = Some e -> Json.contains j "result" = false)
  /\ (unwrap r = Faults bad_optional_access
      <-> _result r = None /\ _error r = None).
Proof.
  intros Hd.
  assert (Hone : _result r = None \/ _error r = None).
  { destruct (Json.contains j "result") eqn:Hc.
    - right. now apply (decode_result_branch T Context get_T get_Context j).
    - left. now apply (decode_error_branch T Context get_T get_Context j r
                         Hc Hd). }
  split; [|split; [|split; [|split]]].
  - intros v. unfold unwrap.
    destruct (_error r) as [e|] eqn:He, (_result r) as [x|] eqn:Hr;
      split; intros H; try discriminate H; try congruence.
    destruct Hone as [Hone|Hone]; discriminate Hone.
  - unfold ok, unwrap.
    destruct (_error r) as [e|] eqn:He, (_result r) as [x|] eqn:Hr.
    + destruct Hone as [Hone|Hone]; discriminate Hone.
    + split; [discriminate | intros [v H]; discriminate H].
    + split; [intros _; now exists x | reflexivity].
    + split; [discriminate | intros [v H]; discriminate H].
  - intros msg. unfold unwrap.
    destruct (_error r) as [e|] eqn:He.
    + split.
      * intros [= <-]. now exists e.
      * intros (e' & [= <-] & <-). reflexivity.
    + destruct (_result r); split; intros H; try discriminate H;
        destruct H as (e' & H & _); discriminate H.
  - intros e He. destruct (Json.contains j "result") eqn:Hc; [|reflexivity].
    rewrite (decode_result_branch T Context get_T get_Context j r Hc Hd)
      in He. discriminate He.
  - unfold unwrap.
    destruct (_error r) as [e|], (_result r) as [x|]; split; intros H;
      try discriminate H; try (destruct H; discriminate);
      try (now split); reflexivity.
Qed.

End UnwrapFacts.

Lemma unwrap_decoded_witness :
  unwrap (mkResult Z Z None None
            (Some (mkResultError (-32002) "Transaction failed")))
  = Faults (raised (runtime_error "Transaction failed")).
Proof.
  assert (H : decode_response Z Z Json.get_int64 Json.get_int64 response_error
              = Ok (mkResult Z Z None None
                      (Some (mkResultError (-32002) "Transaction failed"))))
    by reflexivity.
  destruct (unwrap_decoded Z Z Json.get_int64 Json.get_int64
              response_error _ H) as (_ & _ & Hm & _).
  apply Hm. eexists. split; reflexivity.
Defined.

(** ** Errors of the nonce search *)

Section FindErrors.

Variable crypto_hash_sha256 : list Z -> list Z.
Variable ge25519_is_canonical : list Z -> Z.
Variable ge25519_frombytes : list Z -> Z.

Lemma find_short_seeds_error (seeds : list (list Z)) (programId : PublicKey)
    (e : exn) :
  Forall (fun seed => (length seed <= 32)%nat) seeds ->
  find_program_address crypto_hash_sha256 ge25519_is_canonical
    ge25519_frombytes seeds programId = Throw e ->
  e = runtime_error "Unable to find a viable program address nonce".
Proof.
  intros Hok H.
  destruct (find_from_throw crypto_hash_sha256 ge25519_is_canonical
              ge25519_frombytes 255 seeds programId e H)
    as [[He _]|[_ Hthrow]]; [exact He|].
  exfalso. specialize (Hthrow 0). revert Hthrow.
  unfold create_program_address. rewrite append_seeds_ok.
  - simpl. destruct (is_on_curve _ _ _); discriminate.
  - apply Forall_app. split; [exact Hok|].
    constructor; [|constructor]. simpl. unfold MAX_SEED_LENGTH. lia.
Qed.

(** [find_program_address] raises "Max seed length exceeded" exactly when
    one of the caller's seeds is longer than 32 bytes; with seeds of at most
    32 bytes the only error left is the exhausted nonce search. *)
Theorem find_program_address_seed_error (seeds : list (list Z))
    (programId : PublicKey) :
  (find_program_address crypto_hash_sha256 ge25519_is_canonical
     ge25519_frombytes seeds programId
   = Throw (runtime_error "Max seed length exceeded")
   <-> Exists (fun seed => (32 < length seed)%nat) seeds)
  /\ (Forall (fun seed => (length seed <= 32)%nat) seeds ->
      forall e,
        find_program_address crypto_hash_sha256 ge25519_is_canonical
          ge25519_frombytes seeds programId = Throw e ->
        e = runtime_error "Unable to find a viable program address nonce").
Proof.
  assert (Hlong : Exists (fun seed => (32 < length seed)%nat) seeds ->
            find_program_address crypto_hash_sha256 ge25519_is_canonical
              ge25519_frombytes seeds programId
            = Throw (runtime_error "Max seed length exceeded")).
  { intros H. unfold find_program_address.
    cbn [find_program_address_from]. unfold create_program_address.
    rewrite append_seeds_too_long; [reflexivity|].
    apply Exists_app. now left. }
  assert (Hshort : Forall (fun seed => (length seed <= 32)%nat) seeds ->
            forall e,
              find_program_address crypto_hash_sha256 ge25519_is_canonical
                ge25519_frombytes seeds programId = Throw e ->
              e = runtime_error
                    "Unable to find a viable program address nonce").
  { intros Hok e H. now apply (find_short_seeds_error seeds programId). }
  split; [split|exact Hshort].
  - intros H. destruct (seeds_dec seeds) as [Hok|Hex]; [|exact Hex].
    specialize (Hshort Hok _ H). discriminate Hshort.
  - exact Hlong.
Qed.

(** ** The associated token address *)

(** With 32-byte keys [get_associated_token_address] never raises for a
    seed length.  It raises "Token owner is off curve." exactly when the
    owner is off the curve and that was not allowed; otherwise it returns
    what the nonce search finds for the seeds owner, token program, mint
    under the associated-token program: an address off the curve, accepted
    for some nonce in [1, 255]. *)
Theorem get_associated_token_address_spec
    (mint owner programId associatedTokenProgramId : PublicKey)
    (allowOwnerOffCurve : bool) :
  length (bytes mint) = 32%nat -> length (bytes owner) = 32%nat ->
  length (bytes programId) = 32%nat ->
  let on_curve := is_on_curve ge25519_is_canonical ge25519_frombytes in
  let get :=
    get_associated_token_address crypto_hash_sha256 ge25519_is_canonical
      ge25519_frombytes mint owner allowOwnerOffCurve programId
      associatedTokenProgramId in
  (get = Throw (runtime_error "Token owner is off curve.")
   <-> allowOwnerOffCurve = false /\ on_curve owner = false)
  /\ (forall a, get = Ok a ->
        on_curve a = false
        /\ exists nonce : nat,
             (1 <= nonce <= 255)%nat
             /\ create_program_address crypto_hash_sha256
                  ge25519_is_canonical ge25519_frombytes
                  [bytes owner; bytes programId; bytes mint;
                   [Z.of_nat nonce]]
                  associatedTokenProgramId
                = Ok (Some a))
  /\ (forall e, get = Throw e ->
        e = runtime_error "Token owner is off curve."
        \/ e = runtime_error "Unable to find a viable program address nonce").
Proof.
  intros Hm Ho Hp on_curve get.
  assert (Hseeds : Forall (fun seed => (length seed <= 32)%nat)
                     [to_buffer owner; to_buffer programId; to_buffer mint]).
  { unfold to_buffer.
    constructor; [lia|]. constructor; [lia|]. constructor; [lia|].
    constructor. }
  unfold get, get_associated_token_address. fold on_curve.
  destruct (negb allowOwnerOffCurve && negb (on_curve owner)) eqn:Hb.
  - apply andb_true_iff in Hb. destruct Hb as [Ha Hoc].
    apply negb_true_iff in Ha. apply negb_true_iff in Hoc.
    split; [split; [now split | reflexivity]|].
    split; [discriminate|]. intros e [= <-]. now left.
  - assert (Hnot : ~ (allowOwnerOffCurve = false /\ on_curve owner = false)).
    { intros [Ha Hoc]. rewrite Ha, Hoc in Hb. discriminate Hb. }
    destruct (find_program_address crypto_hash_sha256 ge25519_is_canonical
                ge25519_frombytes
                [to_buffer owner; to_buffer programId; to_buffer mint]
                associatedTokenProgramId) as [[a nonce]|e] eqn:Hf;
      cbn [bind fst].
    + split; [split; [discriminate | intros H; contradiction]|].
      split; [|discriminate].
      intros a' [= <-].
      destruct (find_from_ok crypto_hash_sha256 ge25519_is_canonical
                  ge25519_frombytes 255 _ _ a nonce Hf)
        as (j & -> & Hj & Hc & _).
      split.
      * apply (create_accepts_off_curve crypto_hash_sha256
                 ge25519_is_canonical ge25519_frombytes _ _ _ Hc).
      * exists j. split; [exact Hj | exact Hc].
    + pose proof (find_short_seeds_error _ _ _ Hseeds Hf) as He. subst e.
      split; [split; [discriminate | intros H; contradiction]|].
      split; [discriminate|]. intros e [= <-]. now right.
Qed.

End FindErrors.

Lemma find_program_address_seed_error_witness :
  find_program_address sample_sha256 sample_is_canonical sample_frombytes
    [repeat 0 33] (key 5)
  = Throw (runtime_error "Max seed length exceeded").
Proof.
  apply (proj1 (find_program_address_seed_error sample_sha256
                  sample_is_canonical sample_frombytes [repeat 0 33]
                  (key 5))).
  constructor. simpl. lia.
Defined.

Lemma get_associated_token_address_spec_witness :
  get_associated_token_address sample_sha256 sample_is_canonical
    sample_frombytes (key 2) (key 4) false (key 6) (key 8)
  = Throw (runtime_error "Token owner is off curve.").
Proof.
  apply (proj1 (get_associated_token_address_spec sample_sha256
                  sample_is_canonical sample_frombytes
                  (key 2) (key 4) (key 6) (key 8) false
                  eq_refl eq_refl eq_refl)).
  split; reflexivity.
Defined.

(** ** The associated-token instruction *)

(** The instruction, when the text form of each of the six keys decodes
    back to the key. *)
Lemma create_associated_token_account_instruction_value
    (indeterminate : list Z)
    (payer associatedToken owner mint programId associatedTokenProgramId
       : PublicKey) :
  Forall (fun k => PublicKey_of_string indeterminate (to_base58 k) = k)
         [payer; associatedToken; owner; mint; SYSTEM_PROGRAM indeterminate;
          programId] ->
  create_associated_token_account_instruction indeterminate payer
    associatedToken owner mint programId associatedTokenProgramId
  = Ok (TM.mkInstruction associatedTokenProgramId
          [TM.mkAccountMeta payer true true;
           TM.mkAccountMeta associatedToken false true;
           TM.mkAccountMeta owner false false;
           TM.mkAccountMeta mint false false;
           TM.mkAccountMeta (SYSTEM_PROGRAM indeterminate) false false;
           TM.mkAccountMeta programId false false]
          []).
Proof.
  intros H.
  inversion H as [|? ? H1 H']; subst. inversion H' as [|? ? H2 H'']; subst.
  inversion H'' as [|? ? H3 H3']; subst. inversion H3' as [|? ? H4 H4']; subst.
  inversion H4' as [|? ? H5 H5']; subst. inversion H5' as [|? ? H6 _]; subst.
  unfold create_associated_token_account_instruction, Json_get_vector,
    account_json.
  cbn -[to_base58 PublicKey_of_string SYSTEM_PROGRAM].
  unfold PublicKey_from_json.
  cbn -[to_base58 PublicKey_of_string SYSTEM_PROGRAM].
  now rewrite H1, H2, H3, H4, H5, H6.
Qed.

(** ** Compiling the associated-token transaction *)

Lemma perm_filter {A} (f : A -> bool) (l l' : list A) :
  Permutation l l' -> Permutation (filter f l) (filter f l').
Proof.
  induction 1 as [|x l l' _ IH|x y l|l l' l'' _ IH1 _ IH2]; simpl.
  - constructor.
  - destruct (f x); [now constructor | assumption].
  - destruct (f x), (f y); try reflexivity. apply perm_swap.
  - now transitivity (filter f l').
Qed.

Lemma collect_account_signers (metas : list TM.AccountMeta)
    (a : TM.AccountMeta) :
  TM.isSigner a = false ->
  filter TM.isSigner (TM.collect_account metas a) = filter TM.isSigner metas.
Proof.
  intros Ha. unfold TM.collect_account.
  destruct (_ =? _)%nat; [|reflexivity].
  rewrite filter_app. simpl. rewrite Ha. apply app_nil_r.
Qed.

Lemma fold_collect_account_signers (accs metas : list TM.AccountMeta) :
  Forall (fun a => TM.isSigner a = false) accs ->
  filter TM.isSigner (fold_left TM.collect_account accs metas)
  = filter TM.isSigner metas.
Proof.
  intros H; revert metas; induction H as [|a accs Ha _ IH]; intros metas;
    simpl; [reflexivity|].
  rewrite IH. now apply collect_account_signers.
Qed.

Lemma collect_programs_signers (instrs : list TM.Instruction)
    (metas : list TM.AccountMeta) :
  filter TM.isSigner (TM.collect_programs instrs metas)
  = filter TM.isSigner metas.
Proof.
  destruct (collect_programs_appends instrs metas) as (pids & -> & _).
  rewrite filter_app.
  assert (H : filter TM.isSigner
                (map (fun q => TM.mkAccountMeta q false false) pids) = []).
  { induction pids as [|q pids IH]; [reflexivity | exact IH]. }
  rewrite H. apply app_nil_r.
Qed.

(** A transaction whose only signer entry is its first account, the payer:
    after ordering, the payer is still the only signer. *)
Lemma single_signer_ordered (i : TM.Instruction) (payer : PublicKey)
    (others : list TM.AccountMeta) :
  TM.accounts i = TM.mkAccountMeta payer true true :: others ->
  Forall (fun a => TM.isSigner a = false) others ->
  filter TM.isSigner (TM.ordered_metas [i] payer)
  = [TM.mkAccountMeta payer true true].
Proof.
  intros Hacc Hothers.
  set (P := TM.mkAccountMeta payer true true).
  unfold TM.ordered_metas.
  set (C := TM.collect_programs [i] (TM.collect_accounts [i])).
  assert (HC : filter TM.isSigner C = [P]).
  { unfold C. rewrite collect_programs_signers.
    unfold TM.collect_accounts. cbn [fold_left]. rewrite Hacc.
    cbn [fold_left]. rewrite fold_collect_account_signers by assumption.
    reflexivity. }
  set (S := std_sort TM.meta_less C).
  assert (HS : filter TM.isSigner S = [P]).
  { apply Permutation_length_1_inv. rewrite <- HC.
    apply perm_filter. symmetry. apply std_sort_perm. }
  assert (Hsplit : S = P :: filter (fun a => negb (TM.isSigner a)) S).
  { rewrite (ranked_signers_first S) at 1
      by (apply ordered_ranked, sorted_metas_ordered).
    now rewrite HS. }
  assert (Hin : In payer (map TM.pubkey S)).
  { rewrite Hsplit. now left. }
  rewrite move_fee_payer_present by assumption.
  assert (Hidx : std_find (fun m => TM.meta_eqb_key m payer) S = O).
  { rewrite Hsplit. cbn [std_find]. unfold TM.meta_eqb_key, P.
    cbn [TM.pubkey]. now rewrite pubkey_eqb_refl. }
  rewrite Hidx. unfold erase. cbn [firstn app].
  rewrite Hsplit. cbn [skipn filter TM.isSigner]. f_equal.
  apply filter_none. apply Forall_forall. intros a Ha.
  apply filter_In in Ha. destruct Ha as [_ Ha].
  now apply negb_true_iff in Ha.
Qed.

(** When the text form of each of the six keys decodes back to the key,
    [create_associated_token_account_transaction] builds a transaction with
    one instruction: it names the associated-token program and lists, in
    order, the payer (signer, writable), the new account (writable), the
    owner, the mint, the system program and the token program (all
    read-only), with no payload.  Compiled for its payer, that transaction
    always asks for exactly one signature, has no read-only signer, lists
    the payer first, and serializes. *)
Theorem associated_token_transaction_compiles
    (encode_length : nat -> list Z)
    (indeterminate : list Z) (header : TransactionMessageHeader)
    (payer : Keypair) (rest : list Keypair)
    (associatedToken owner mint programId associatedTokenProgramId
       : PublicKey) :
  Forall (fun k => PublicKey_of_string indeterminate (to_base58 k) = k)
         [publicKey payer; associatedToken; owner; mint;
          SYSTEM_PROGRAM indeterminate; programId] ->
  exists tx msg,
    create_associated_token_account_transaction indeterminate header
      (publicKey payer) associatedToken owner mint programId
      associatedTokenProgramId = Ok tx
    /\ TM.instructions (tx_message tx)
       = [TM.mkInstruction associatedTokenProgramId
            [TM.mkAccountMeta (publicKey payer) true true;
             TM.mkAccountMeta associatedToken false true;
             TM.mkAccountMeta owner false false;
             TM.mkAccountMeta mint false false;
             TM.mkAccountMeta (SYSTEM_PROGRAM indeterminate) false false;
             TM.mkAccountMeta programId false false]
            []]
    /\ TM.compile (tx_message tx) (payer :: rest) = Ok msg
    /\ numRequiredSignatures (CM.header msg) = 1
    /\ numReadonlySignedAccounts (CM.header msg) = 0
    /\ nth_error (CM.accountKeys msg) 0 = Some (publicKey payer)
    /\ In associatedTokenProgramId (CM.accountKeys msg)
    /\ CM.serialize encode_length msg []
       = Ok (CM.message_layout encode_length msg).
Proof.
  intros Hrt.
  unfold create_associated_token_account_transaction.
  rewrite (create_associated_token_account_instruction_value _ _ _ _ _ _ _ Hrt).
  cbn [bind]. eexists. 
  set (i := TM.mkInstruction associatedTokenProgramId _ []).
  set (m := tx_message (Transaction_add (Transaction_default header) i)).
  assert (Hm : TM.instructions m = [i]) by reflexivity.
  assert (Hne : TM.instructions m <> []) by (rewrite Hm; discriminate).
  eexists. split; [reflexivity|]. split; [reflexivity|].
  split; [apply (compile_eq m payer rest Hne)|].
  cbn [CM.header CM.accountKeys numRequiredSignatures
       numReadonlySignedAccounts].
  rewrite Hm.
  assert (Hs : filter TM.isSigner (TM.ordered_metas [i] (publicKey payer))
               = [TM.mkAccountMeta (publicKey payer) true true]).
  { apply single_signer_ordered with
      (others := [TM.mkAccountMeta associatedToken false true;
                  TM.mkAccountMeta owner false false;
                  TM.mkAccountMeta mint false false;
                  TM.mkAccountMeta (SYSTEM_PROGRAM indeterminate) false false;
                  TM.mkAccountMeta programId false false]).
    - reflexivity.
    - repeat constructor. }
  assert (Hreq : TM.n_required
                   (TM.split_keys (TM.ordered_metas [i] (publicKey payer)))
                 = 1).
  { rewrite split_keys_required, Hs. reflexivity. }
  split; [exact Hreq|]. split; [|split; [|split]].
  - rewrite split_keys_readonly_signed.
    assert (H0 : filter (fun a => TM.isSigner a && negb (TM.isWritable a))
                   (TM.ordered_metas [i] (publicKey payer)) = []).
    { apply filter_none. apply Forall_forall. intros a Ha.
      destruct (TM.isSigner a) eqn:Hsa; [|reflexivity].
      assert (Hin : In a (filter TM.isSigner
                            (TM.ordered_metas [i] (publicKey payer))))
        by (apply filter_In; now split).
      rewrite Hs in Hin. destruct Hin as [<-|[]]. reflexivity. }
    now rewrite H0.
  - unfold final_keys. rewrite split_keys_signed, Hs. reflexivity.
  - apply final_keys_program with (i := i). now left.
  - apply serialize_returns_layout. cbn [CM.header numRequiredSignatures].
    rewrite Hreq. discriminate.
Qed.

Lemma associated_token_transaction_compiles_witness :
  exists tx msg,
    create_associated_token_account_transaction [] (mkHeader 0 0 0)
      (key 1) (key 2) (key 3) (key 4) (key 6) (key 8) = Ok tx
    /\ TM.compile (tx_message tx) [payer] = Ok msg
    /\ numRequiredSignatures (CM.header msg) = 1.
Proof.
  destruct (associated_token_transaction_compiles encode_length []
              (mkHeader 0 0 0) payer [] (key 2) (key 3) (key 4) (key 6)
              (key 8))
    as (tx & msg & Htx & _ & Hc & Hreq & _).
  - repeat constructor; vm_compute; reflexivity.
  - exists tx, msg. split; [exact Htx|]. split; [exact Hc | exact Hreq].
Defined.

(** ** Comparing keys *)

Lemma bytes_ltb_trans_strict (a b c : list Z) :
  bytes_ltb a b = true -> bytes_ltb b c = true -> bytes_ltb a c = true.
Proof.
  revert b c; induction a as [|x a IH]; intros [|y b] [|z c]; simpl;
    try discriminate.
  destruct (Z.ltb_spec x y), (Z.gtb_spec x y), (Z.ltb_spec y z),
    (Z.gtb_spec y z), (Z.ltb_spec x z), (Z.gtb_spec x z);
    try lia; try discriminate; try reflexivity.
  apply IH.
Qed.

(** On keys of the same length [operator==] is equality and [operator<] is
    a strict total order: never [a < a], never both [a < b] and [b < a],
    transitive, and any two different keys are ordered one way. *)
Theorem PublicKey_order (a b c : PublicKey) :
  length (bytes a) = length (bytes b) ->
  (pubkey_eqb a b = true <-> a = b)
  /\ pubkey_ltb a a = false
  /\ (pubkey_ltb a b = true -> pubkey_ltb b a = false)
  /\ (pubkey_ltb a b = true -> pubkey_ltb b c = true ->
      pubkey_ltb a c = true)
  /\ (pubkey_ltb a b = true \/ a = b \/ pubkey_ltb b a = true).
Proof.
  intros Hlen. split; [apply pubkey_eqb_eq|].
  split; [|split; [apply bytes_ltb_asym|split; [apply bytes_ltb_trans_strict|]]].
  - unfold pubkey_ltb. destruct (bytes_ltb (bytes a) (bytes a)) eqn:E;
      [|reflexivity].
    pose proof (bytes_ltb_asym _ _ E) as E'. congruence.
  - unfold pubkey_ltb.
    destruct (bytes_ltb (bytes a) (bytes b)) eqn:Hab; [now left|].
    destruct (bytes_ltb (bytes b) (bytes a)) eqn:Hba; [now right; right|].
    right. left. destruct a as [xa], b as [xb]. simpl in *.
    f_equal. now apply bytes_ltb_total.
Qed.

Lemma PublicKey_order_witness :
  pubkey_ltb (key 1) (key 2) = true /\ pubkey_ltb (key 2) (key 1) = false.
Proof.
  destruct (PublicKey_order (key 1) (key 2) (key 2) eq_refl)
    as (_ & _ & Hasym & _).
  split; [reflexivity | apply Hasym; reflexivity].
Defined.

Lemma std_sort_unique_witness :
  [TM.mkAccountMeta (key 1) true true; TM.mkAccountMeta (key 3) false true;
   TM.mkAccountMeta (key 5) false false]
  = std_sort TM.meta_less
      [TM.mkAccountMeta (key 5) false false;
       TM.mkAccountMeta (key 1) true true;
       TM.mkAccountMeta (key 3) false true].
Proof.
  apply std_sort_unique.
  - repeat constructor.
  - apply Permutation_cons_app with (l1 := [TM.mkAccountMeta (key 5) false false])
                                    (l2 := [TM.mkAccountMeta (key 3) false true]).
    simpl. apply perm_swap.
  - reflexivity.
Defined.
